(** * Ripple Effect CSP model builder: a shallow embedding of
      [ripple_effect_csp.py] and the properties of the model it builds.

    The Python module compiles a Ripple Effect board (a grid cut into rooms)
    into a CSP: one variable per logical cell, one n-ary table constraint per
    room and one binary table constraint per ordered pair of cells of a row
    or of a column that lie close enough.

    Python objects that are shared by reference (the [Variable]s held by
    [var_array], by every constraint scope and by the [CSP]) live in one
    store, the variable grid, and are referred to by their position in it.
    Code that touches them runs in a state-and-exception monad over that
    store. *)

From Stdlib Require Import ZArith Lia String Ascii DecimalString.
From stdpp Require Import base tactics option list numbers strings.

Local Open Scope Z_scope.

(** ** Python values, exceptions and list primitives *)

(** The values a board holds: integers (clues, [0] for an unknown cell),
    strings (the separator marks) and [None]. *)
Inductive pyval : Type :=
  | PInt (z : Z)
  | PStr (s : string)
  | PNone.

#[global] Instance pyval_eq_dec : EqDecision pyval.
Proof. solve_decision. Defined.

Inductive exn : Type :=
  | IndexError
  | ValueError.

#[global] Instance exn_eq_dec : EqDecision exn.
Proof. solve_decision. Defined.

Inductive result (A : Type) : Type :=
  | Ok (a : A)
  | Raise (e : exn).
Arguments Ok {A} a.
Arguments Raise {A} e.

(** [range(n)] and [range(lo, hi)] *)
Definition range (n : nat) : list nat := seq 0 n.
Definition range2 (lo hi : nat) : list nat := seq lo (hi - lo).

(** [enumerate(l)] *)
Fixpoint enumerate_from {A} (start : nat) (l : list A) : list (nat * A) :=
  match l with
  | [] => []
  | x :: xs => (start, x) :: enumerate_from (S start) xs
  end.
Definition enumerate {A} (l : list A) : list (nat * A) := enumerate_from 0 l.

(** Position designated by a Python subscript [i] in a sequence of length
    [len]: negative subscripts count from the end. *)
Definition py_pos (len : nat) (i : Z) : option nat :=
  if bool_decide (0 ≤ i) then
    (if bool_decide (i < Z.of_nat len) then Some (Z.to_nat i) else None)
  else
    (if bool_decide (- Z.of_nat len ≤ i) then Some (Z.to_nat (Z.of_nat len + i))
     else None).

(** [l[i]] *)
Definition py_index {A} (l : list A) (i : Z) : result A :=
  match py_pos (length l) i with
  | Some p => match l !! p with Some x => Ok x | None => Raise IndexError end
  | None => Raise IndexError
  end.

(** [l.remove(x)]: drops the first occurrence, [ValueError] when there is
    none. *)
Fixpoint list_remove {A} `{EqDecision A} (x : A) (l : list A) : result (list A) :=
  match l with
  | [] => Raise ValueError
  | y :: ys =>
      if decide (y = x) then Ok ys
      else match list_remove x ys with
           | Ok ys' => Ok (y :: ys')
           | Raise e => Raise e
           end
  end.

(** [l.insert(i, x)] for [i >= 0]: past the end it appends. *)
Definition py_insert {A} (i : nat) (x : A) (l : list A) : list A :=
  take i l ++ x :: drop i l.

(** [max(l)] of a list of lengths: [ValueError] on the empty list. *)
Definition py_max (l : list nat) : result nat :=
  match l with
  | [] => Raise ValueError
  | x :: xs => Ok (foldl Nat.max x xs)
  end.

(** [itertools.product(l, repeat=2)] as 2-tuples *)
Definition product2 {A} (l : list A) : list (A * A) :=
  l ≫= (fun a => (fun b => (a, b)) <$> l).

(** [itertools.permutations(l)]: tuples in lexicographic order of the
    positions of [l]. [selections l] lists every element together with the
    rest of the list, in order. *)
Fixpoint selections {A} (l : list A) : list (A * list A) :=
  match l with
  | [] => []
  | x :: xs => (x, xs) :: ((fun p => (p.1, x :: p.2)) <$> selections xs)
  end.

Fixpoint permutations_upto {A} (n : nat) (l : list A) : list (list A) :=
  match n with
  | O => [[]]
  | S n' =>
      selections l ≫= (fun p => cons p.1 <$> permutations_upto n' p.2)
  end.

Definition permutations {A} (l : list A) : list (list A) :=
  permutations_upto (length l) l.

(** [str(n)] for a natural number *)
Definition str (n : nat) : string := NilEmpty.string_of_uint (Nat.to_uint n).

(** ** The CSP classes *)

(** Modelled from the spec: the class [Variable] of the module [cspbase],
    which is not among the sources. A variable has an identity, a finite
    domain of candidate values and an optional fixed assignment; [assign]
    records the value, [add_domain_values] extends the domain, and
    [is_assigned] and [get_assigned_value] are queries. *)
Record CspVariable : Type := mkVariable {
  name : string;
  domain : list pyval;
  assignedValue : option pyval
}.

#[global] Instance CspVariable_eq_dec : EqDecision CspVariable.
Proof. solve_decision. Defined.

(** [Variable(name)] *)
Definition new_variable (nm : string) : CspVariable := mkVariable nm [] None.

Definition add_domain_values (vals : list pyval) (v : CspVariable) : CspVariable :=
  mkVariable (name v) (domain v ++ vals) (assignedValue v).

Definition assign (val : pyval) (v : CspVariable) : CspVariable :=
  mkVariable (name v) (domain v) (Some val).

(** the attribute write [var.domain = d] *)
Definition set_domain (d : list pyval) (v : CspVariable) : CspVariable :=
  mkVariable (name v) d (assignedValue v).

Definition is_assigned (v : CspVariable) : bool :=
  match assignedValue v with Some _ => true | None => false end.

Definition get_assigned_value (v : CspVariable) : pyval :=
  match assignedValue v with Some x => x | None => PNone end.

(** A reference to a variable object: its row and column in the grid. *)
Abbreviation ref := (nat * nat)%type.

(** A logical cell coordinate as the room lists give it. *)
Abbreviation cell := (Z * Z)%type.

(** Modelled from the spec: the class [Constraint] of [cspbase]: a named
    relation over an ordered scope of variables, given by the table of the
    tuples that satisfy it. *)
Record Constraint : Type := mkConstraint {
  cname : string;
  scope : list ref;
  sat_tuples : list (list pyval)
}.

#[global] Instance Constraint_eq_dec : EqDecision Constraint.
Proof. solve_decision. Defined.

Definition new_constraint (nm : string) (sc : list ref) : Constraint :=
  mkConstraint nm sc [].

Definition add_satisfying_tuples (ts : list (list pyval)) (c : Constraint) : Constraint :=
  mkConstraint (cname c) (scope c) (sat_tuples c ++ ts).

(** Modelled from the spec: the class [CSP] of [cspbase]: a named container
    in which variables, rooms and constraints are registered, in order. *)
Record CSP : Type := mkCSP {
  csp_name : string;
  vars : list ref;
  csp_rooms : list (list cell);
  cons : list Constraint
}.

Definition new_csp (nm : string) : CSP := mkCSP nm [] [] [].

Definition add_var (r : ref) (c : CSP) : CSP :=
  mkCSP (csp_name c) (vars c ++ [r]) (csp_rooms c) (cons c).

Definition add_room (room : list cell) (c : CSP) : CSP :=
  mkCSP (csp_name c) (vars c) (csp_rooms c ++ [room]) (cons c).

Definition add_constraint (k : Constraint) (c : CSP) : CSP :=
  mkCSP (csp_name c) (vars c) (csp_rooms c) (cons c ++ [k]).

(** ** The store and its monad *)

(** [var_array]: the list of rows of variables. It is the store. *)
Abbreviation var_array := (list (list CspVariable)).

Definition M (A : Type) : Type := var_array -> result (A * var_array).

Definition ret {A} (a : A) : M A := fun s => Ok (a, s).

Definition bind {A B} (m : M A) (k : A -> M B) : M B :=
  fun s => match m s with
           | Ok (a, s') => k a s'
           | Raise e => Raise e
           end.

Definition raise {A} (e : exn) : M A := fun _ => Raise e.

Definition lift {A} (r : result A) : M A :=
  fun s => match r with Ok a => Ok (a, s) | Raise e => Raise e end.

Definition get_store : M var_array := fun s => Ok (s, s).
Definition put_store (s' : var_array) : M unit := fun _ => Ok (tt, s').

Notation "x <- c1 ;; c2" := (bind c1 (fun x => c2))
  (at level 100, c1 at next level, right associativity).
Notation "c1 ;;; c2" := (bind c1 (fun _ => c2))
  (at level 100, right associativity).

(** A [for] loop that threads the local variables [b] it updates. *)
Fixpoint foldM {A B} (body : B -> A -> M B) (l : list A) (b : B) : M B :=
  match l with
  | [] => ret b
  | x :: xs => b' <- body b x ;; foldM body xs b'
  end.

(** A [for] loop run for its effect on the store. *)
Definition for_ {A} (l : list A) (body : A -> M unit) : M unit :=
  foldM (fun _ x => body x) l tt.

(** A list comprehension whose element expression runs in the monad. *)
Fixpoint mapM {A B} (f : A -> M B) (l : list A) : M (list B) :=
  match l with
  | [] => ret []
  | x :: xs => y <- f x ;; ys <- mapM f xs ;; ret (y :: ys)
  end.

(** The variable a reference designates. *)
Definition lookup_var (s : var_array) (r : ref) : option CspVariable :=
  match s !! r.1 with
  | Some row => row !! r.2
  | None => None
  end.

Definition update_var (f : CspVariable -> CspVariable) (r : ref) (s : var_array) : var_array :=
  alter (alter f r.2) r.1 s.

(** [var_array[i][j]]: evaluates to a reference to the variable there. *)
Definition subscript2 (i j : Z) : M ref :=
  fun s =>
    match py_pos (length s) i with
    | Some p =>
        match s !! p with
        | Some row =>
            match py_pos (length row) j with
            | Some q => Ok ((p, q), s)
            | None => Raise IndexError
            end
        | None => Raise IndexError
        end
    | None => Raise IndexError
    end.

Definition read_var {A} (f : CspVariable -> A) (r : ref) : M A :=
  fun s => match lookup_var s r with
           | Some v => Ok (f v, s)
           | None => Raise IndexError
           end.

Definition write_var (f : CspVariable -> CspVariable) (r : ref) : M unit :=
  fun s => match lookup_var s r with
           | Some _ => Ok (tt, update_var f r s)
           | None => Raise IndexError
           end.

(** The methods of a variable object, called through a reference. *)
Definition var_name (r : ref) : M string := read_var name r.
Definition var_is_assigned (r : ref) : M bool := read_var is_assigned r.
Definition var_get_assigned_value (r : ref) : M pyval := read_var get_assigned_value r.
Definition var_add_domain_values (r : ref) (vals : list pyval) : M unit :=
  write_var (add_domain_values vals) r.
Definition var_assign (r : ref) (val : pyval) : M unit := write_var (assign val) r.
Definition var_set_domain (r : ref) (d : list pyval) : M unit := write_var (set_domain d) r.

(** The references held by the rows of the grid, row by row. *)
Definition grid_refs (s : var_array) : list (list ref) :=
  imap (fun i row => imap (fun j _ => (i, j)) row) s.

(** ** The program *)

Abbreviation board := (list (list pyval)).

(** [board[a][b]] *)
Definition board_at (b : board) (x y : Z) : result pyval :=
  match py_index b x with
  | Ok row => py_index row y
  | Raise e => Raise e
  end.

(** [[(n+1) for n in range(k)]] *)
Definition one_to (k : nat) : list pyval :=
  (fun n => PInt (Z.of_nat n + 1)) <$> range k.

Definition make_variable (b : board) (rooms : list (list cell)) (Mw Nh : nat) : M unit :=
  put_store ((fun i => (fun j => new_variable ("V" ++ str i ++ "," ++ str j))
                         <$> range Mw)
             <$> range Nh) ;;;
  for_ rooms (fun room =>
    let max_domain := length room in
    for_ room (fun c =>
      let '(i, j) := c in
      var <- subscript2 i j ;;
      var_add_domain_values var (one_to max_domain) ;;;
      val <- lift (board_at b (i * 2) (j * 2)) ;;
      if decide (val ≠ PInt 0) then
        var_assign var val ;;;
        var_set_domain var [val]
      else ret tt)).

Definition room_constraint (room : list cell) (k : nat) : M Constraint :=
  let it := one_to (length room) in
  scope <- foldM (fun scope c =>
                    let '(i, j) := c in
                    var <- subscript2 i j ;;
                    ret (scope ++ [var]))
                 room [] ;;
  st <-
    foldM (fun st p =>
             let '(found, it) := st in
             let '(i, var) := p in
             a <- var_is_assigned var ;;
             if a then
               v <- var_get_assigned_value var ;;
               let found := found ++ [(i, v)] in
               w <- var_get_assigned_value var ;;
               it <- lift (list_remove w it) ;;
               ret (found, it)
             else ret (found, it))
          (enumerate scope) ([], it) ;;
  let '(found, it) := st in
  let sat_tuples := permutations it in
  let sat_tuples :=
    foldl (fun tups p => py_insert p.1 p.2 <$> tups) sat_tuples found in
  let c := new_constraint ("C" ++ str k) scope in
  ret (add_satisfying_tuples sat_tuples c).

Definition make_constraint (var1 var2 : ref) : M Constraint :=
  n1 <- var_name var1 ;;
  n2 <- var_name var2 ;;
  ret (new_constraint ("C-" ++ n1 ++ ":" ++ n2) [var1; var2]).

(** A 2-tuple of integers as a table row. *)
Definition pair_tuple (p : nat * nat) : list pyval :=
  [PInt (Z.of_nat p.1); PInt (Z.of_nat p.2)].

(** The tables [n_dist_tuples]: entry [n] serves the pairs at distance
    [n+1]. *)
Definition n_dist_tuples (max_rsize : nat) : result (list (list (list pyval))) :=
  let tables :=
    (fun _ => pair_tuple <$> product2 (range2 1 (max_rsize + 1)))
      <$> range max_rsize in
  let step (tables : result (list (list (list pyval)))) (n : nat) :=
    foldl (fun tables t =>
             match tables with
             | Ok tabs =>
                 match py_index tabs (Z.of_nat n) with
                 | Ok tab =>
                     match list_remove (pair_tuple t) tab with
                     | Ok tab' => Ok (<[n := tab']> tabs)
                     | Raise e => Raise e
                     end
                 | Raise e => Raise e
                 end
             | Raise e => Raise e
             end)
          tables
          (zip (range2 (n + 1) (max_rsize + 1)) (range2 (n + 1) (max_rsize + 1))) in
  foldl step (Ok tables) (range max_rsize).

Definition space_constraint (max_rsize Mw Nh : nat) : M (list Constraint) :=
  n_dist_tuples <- lift (n_dist_tuples max_rsize) ;;
  let space_cons := [] in
  space_cons <-
    foldM (fun space_cons i =>
      foldM (fun space_cons ab =>
        let '(a, b) := ab in
        foldM (fun space_cons n =>
          if decide (Z.abs (Z.of_nat a - Z.of_nat b) = Z.of_nat n + 1) then
            var1 <- subscript2 (Z.of_nat i) (Z.of_nat a) ;;
            var2 <- subscript2 (Z.of_nat i) (Z.of_nat b) ;;
            con_row <- make_constraint var1 var2 ;;
            tab <- lift (py_index n_dist_tuples (Z.of_nat n)) ;;
            ret (space_cons ++ [add_satisfying_tuples tab con_row])
          else ret space_cons)
        (range max_rsize) space_cons)
      (product2 (range Mw)) space_cons)
    (range Nh) space_cons ;;
  foldM (fun space_cons i =>
    foldM (fun space_cons ab =>
      let '(a, b) := ab in
      foldM (fun space_cons n =>
        if decide (Z.abs (Z.of_nat a - Z.of_nat b) = Z.of_nat n + 1) then
          var1 <- subscript2 (Z.of_nat a) (Z.of_nat i) ;;
          var2 <- subscript2 (Z.of_nat b) (Z.of_nat i) ;;
          con_col <- make_constraint var1 var2 ;;
          tab <- lift (py_index n_dist_tuples (Z.of_nat n)) ;;
          ret (space_cons ++ [add_satisfying_tuples tab con_col])
        else ret space_cons)
      (range max_rsize) space_cons)
    (product2 (range Nh)) space_cons)
  (range Mw) space_cons.

Definition ripple_effect_csp_model (initial_RP_board : board) (rooms : list (list cell))
    : M CSP :=
  row0 <- lift (py_index initial_RP_board 0) ;;
  let Mw := ((length row0 + 1) / 2)%nat in
  let Nh := ((length initial_RP_board + 1) / 2)%nat in
  make_variable initial_RP_board rooms Mw Nh ;;;
  room_cons <- mapM (fun p => room_constraint p.2 (p.1 + 1)) (enumerate rooms) ;;
  max_rsize <- lift (py_max (length <$> rooms)) ;;
  space_cons <- space_constraint max_rsize Mw Nh ;;
  let csp := new_csp "Ripple_Effect" in
  grid <- get_store ;;
  let csp := foldl (fun csp row => foldl (fun csp var => add_var var csp) csp row)
                   csp (grid_refs grid) in
  let csp := foldl (fun csp room => add_room room csp) csp rooms in
  let csp := foldl (fun csp c => add_constraint c csp) csp room_cons in
  let csp := foldl (fun csp c => add_constraint c csp) csp space_cons in
  ret csp.

(** The call [ripple_effect_csp_model(board, rooms)]: no variable exists
    before it; its result is the pair of the model and the variable grid. *)
Definition run_model (b : board) (rooms : list (list cell)) : result (CSP * var_array) :=
  ripple_effect_csp_model b rooms [].


(** ** Vocabulary of the statements *)

(** A computation that leaves every variable as it found it. *)
Definition read_only {A} (m : M A) : Prop :=
  ∀ s a s', m s = Ok (a, s') → s' = s.

(** The variable that the subscripts [c] designate in the grid [s]. *)
Definition resolve (s : var_array) (c : cell) : option ref :=
  match py_pos (length s) c.1 with
  | Some p =>
      match s !! p with
      | Some row =>
          match py_pos (length row) c.2 with
          | Some q => Some (p, q)
          | None => None
          end
      | None => None
      end
  | None => None
  end.

(** The same for a grid of [Nh] rows of [Mw] variables. *)
Definition cell_ref (Nh Mw : nat) (c : cell) : option ref :=
  match py_pos Nh c.1, py_pos Mw c.2 with
  | Some p, Some q => Some (p, q)
  | _, _ => None
  end.

Definition rect (Nh Mw : nat) (s : var_array) : Prop :=
  length s = Nh ∧ Forall (λ row, length row = Mw) s.

(** The grid [make_variable] starts from. *)
Definition fresh_grid (Mw Nh : nat) : var_array :=
  (fun i => (fun j => new_variable ("V" ++ str i ++ "," ++ str j)) <$> range Mw)
    <$> range Nh.

(** What one pass of the inner loop of [make_variable] does to the variable
    of a cell of a room of size [k] whose board entry is [val]. *)
Definition touch (k : nat) (val : pyval) (v : CspVariable) : CspVariable :=
  let v := add_domain_values (one_to k) v in
  if decide (val ≠ PInt 0) then set_domain [val] (assign val v) else v.

(** The body of the inner loop of [make_variable]. *)
Definition make_variable_body (b : board) (max_domain : nat) : cell → M unit :=
  fun c =>
    let '(i, j) := c in
    var <- subscript2 i j ;;
    var_add_domain_values var (one_to max_domain) ;;;
    val <- lift (board_at b (i * 2) (j * 2)) ;;
    if decide (val ≠ PInt 0) then
      var_assign var val ;;;
      var_set_domain var [val]
    else ret tt.

(** The cells that [make_variable] visits, in order, each with the size of
    its room. *)
Definition tagged_cells (rooms : list (list cell)) : list (nat * cell) :=
  rooms ≫= (fun room => (fun c => (length room, c)) <$> room).

(** The logical size of a board: [M] and [N] of [ripple_effect_csp_model]. *)
Definition board_width (b : board) : nat := ((length (default [] (b !! 0%nat)) + 1) / 2)%nat.
Definition board_height (b : board) : nat := ((length b + 1) / 2)%nat.

(** The scope of a room: the variables its cells designate, when all do. *)
Fixpoint resolve_all (s : var_array) (room : list cell) : option (list ref) :=
  match room with
  | [] => Some []
  | c :: cs =>
      match resolve s c, resolve_all s cs with
      | Some r, Some rs => Some (r :: rs)
      | _, _ => None
      end
  end.

(** The value a variable is fixed to, if it is assigned. *)
Definition fixed_at (s : var_array) (r : ref) : option pyval :=
  match lookup_var s r with
  | Some v => if is_assigned v then Some (get_assigned_value v) else None
  | None => None
  end.

(** The fixed positions of a scope, numbered from [idx], with their values. *)
Fixpoint fixed_of (idx : nat) (ovs : list (option pyval)) : list (nat * pyval) :=
  match ovs with
  | [] => []
  | Some v :: rest => (idx, v) :: fixed_of (S idx) rest
  | None :: rest => fixed_of (S idx) rest
  end.

Definition fixed_cells (s : var_array) (sc : list ref) : list (nat * pyval) :=
  fixed_of 0 (fixed_at s <$> sc).

(** Successive [remove] calls on the pool of values. *)
Fixpoint remove_all (vals : list pyval) (it : list pyval) : result (list pyval) :=
  match vals with
  | [] => Ok it
  | v :: vs =>
      match list_remove v it with
      | Ok it' => remove_all vs it'
      | Raise e => Raise e
      end
  end.

(** Putting the fixed values back into one tuple. *)
Definition insert_fixed (found : list (nat * pyval)) (t : list pyval) : list pyval :=
  foldl (fun t p => py_insert p.1 p.2 t) t found.

(** A pair of values survives the removals of the diagonal pairs [(v, v)]
    with [d <= v < j]. *)
Definition keeps (d j : nat) (p : nat * nat) : Prop :=
  ¬ (p.1 = p.2 ∧ (d ≤ p.1 < j)%nat).

#[global] Instance keeps_dec d j p : Decision (keeps d j p).
Proof. unfold keeps. apply _. Defined.

(** The table [T[d]] of the admissible value pairs at distance [d] when
    the largest room has [R] cells. *)
Definition dist_table (R d : nat) : list (list pyval) :=
  pair_tuple <$> filter (keeps d (R + 1)) (product2 (range2 1 (R + 1))).

(** The tables once the removals for the distances [1..j] are done. *)
Definition tables_upto (R j : nat) : list (list (list pyval)) :=
  (fun n => if decide (n < j)%nat then dist_table R (n + 1)
            else pair_tuple <$> product2 (range2 1 (R + 1))) <$> range R.

(** The shape shared by the two loops of [space_constraint], over the rows
    and over the columns: [at_ i a] is the grid subscript of the [a]-th
    cell of line [i]. *)
Definition sweep (tables : list (list (list pyval))) (max_rsize lines len : nat)
    (at_ : nat -> nat -> Z * Z) (space_cons : list Constraint) : M (list Constraint) :=
  foldM (fun space_cons i =>
    foldM (fun space_cons ab =>
      let '(a, b) := ab in
      foldM (fun space_cons n =>
        if decide (Z.abs (Z.of_nat a - Z.of_nat b) = Z.of_nat n + 1) then
          var1 <- subscript2 (at_ i a).1 (at_ i a).2 ;;
          var2 <- subscript2 (at_ i b).1 (at_ i b).2 ;;
          con <- make_constraint var1 var2 ;;
          tab <- lift (py_index tables (Z.of_nat n)) ;;
          ret (space_cons ++ [add_satisfying_tuples tab con])
        else ret space_cons)
      (range max_rsize) space_cons)
    (product2 (range len)) space_cons)
  (range lines) space_cons.

(** The name of the variable a reference designates. *)
Definition name_of (s : var_array) (r : ref) : string :=
  match lookup_var s r with Some v => name v | None => "" end.

(** The constraint that [space_constraint] builds for the ordered pair of
    variables [(p, q)] lying [d] cells apart. *)
Definition pair_constraint (s : var_array) (R : nat) (p q : ref) (d : nat) : Constraint :=
  mkConstraint ("C-" ++ name_of s p ++ ":" ++ name_of s q) [p; q] (dist_table R d).

(** Distance of two positions of a line. *)
Definition gap (a b : nat) : nat := Z.to_nat (Z.abs (Z.of_nat a - Z.of_nat b)).

(** Distance of two cells that share a row or a column. *)
Definition axis_distance (p q : ref) : option nat :=
  if decide (p.1 = q.1) then Some (gap p.2 q.2)
  else if decide (p.2 = q.2) then Some (gap p.1 q.1)
  else None.

Definition in_grid (Nh Mw : nat) (p : ref) : Prop := (p.1 < Nh)%nat ∧ (p.2 < Mw)%nat.

(** The constraints of one sweep: for every line, every ordered pair of
    its positions whose distance lies in [1..R]. [cell_at i a] is the
    [a]-th variable of line [i]. *)
Definition sweep_list (s : var_array) (R lines len : nat) (cell_at : nat → nat → ref)
    : list Constraint :=
  range lines ≫= (fun i =>
    product2 (range len) ≫= (fun ab =>
      if decide (1 ≤ gap ab.1 ab.2 ≤ R)%nat
      then [pair_constraint s R (cell_at i ab.1) (cell_at i ab.2) (gap ab.1 ab.2)]
      else [])).

(** ** Well-formed inputs *)

(** The board entry of a cell. *)
Definition clue_of (b : board) (c : cell) : pyval :=
  match board_at b (c.1 * 2) (c.2 * 2) with
  | Ok v => v
  | Raise _ => PNone
  end.

(** The board holds, for the cell [c] of a room of size [k], either [0] or
    a clue within [1..k]. *)
Definition clue_in_range (b : board) (k : nat) (c : cell) : Prop :=
  match board_at b (c.1 * 2) (c.2 * 2) with
  | Ok (PInt z) => 0 ≤ z ≤ Z.of_nat k
  | _ => False
  end.

#[global] Instance clue_in_range_dec b k c : Decision (clue_in_range b k c).
Proof. unfold clue_in_range. repeat case_match; apply _. Defined.

(** The largest room size, [max_rsize]. *)
Definition max_room_size (rooms : list (list cell)) : nat :=
  match py_max (length <$> rooms) with
  | Ok n => n
  | Raise _ => 0%nat
  end.

(** Inputs on which the construction is meant to run: a board with a
    first row, at least one room, every room cell inside the grid and with
    a board entry in range, no variable designated twice, and no clue
    repeated inside a room. The rooms need not cover the grid. *)
Definition well_formed (b : board) (rooms : list (list cell)) : Prop :=
  is_Some (b !! 0%nat) ∧
  rooms ≠ [] ∧
  Forall (λ room,
            Forall (λ c, is_Some (cell_ref (board_height b) (board_width b) c) ∧
                         clue_in_range b (length room) c) room) rooms ∧
  NoDup (cell_ref (board_height b) (board_width b) <$> concat rooms) ∧
  Forall (λ room, NoDup (filter (λ v, v ≠ PInt 0) (clue_of b <$> room))) rooms.

#[global] Instance well_formed_dec b rooms : Decision (well_formed b rooms).
Proof. unfold well_formed. apply _. Defined.

(** ** Sample inputs *)

(** A row of three cells forming one room, the middle one given as [2]. *)
Definition row3_board : board :=
  [[PInt 0; PStr " "; PInt 2; PStr " "; PInt 0]].
Definition row3_rooms : list (list cell) := [[(0, 0); (0, 1); (0, 2)]].
Definition row3_grid : var_array :=
  [[mkVariable "V0,0" (one_to 3) None;
    mkVariable "V0,1" [PInt 2] (Some (PInt 2));
    mkVariable "V0,2" (one_to 3) None]].

(** A 2 x 2 board without clues. *)
Definition blank_board : board :=
  [[PInt 0;   PStr " "; PInt 0];
   [PStr " "; PStr " "; PStr " "];
   [PInt 0;   PStr " "; PInt 0]].

(** A room list that reaches the last cell of a 2 x 2 board from the end. *)
Definition wrapping_rooms : list (list cell) := [[(0, 0); (0, 1); (1, 0); (-1, -1)]].

(** A room list that leaves the last cell of a 2 x 2 board out. *)
Definition partial_rooms : list (list cell) := [[(0, 0); (0, 1); (1, 0)]].

(** ** Vocabulary of the further properties *)

(** The visits that [make_variable] pays to the variable [r]: the cells of
    [l] that designate it, in order. *)
Definition visits (Nh Mw : nat) (r : ref) (l : list (nat * cell)) : list (nat * cell) :=
  filter (λ kc, cell_ref Nh Mw kc.2 = Some r) l.

(** The effect of a sequence of visits on a variable. *)
Definition touch_all (b : board) (l : list (nat * cell)) (v : CspVariable) : CspVariable :=
  foldl (fun v kc => touch kc.1 (clue_of b kc.2) v) v l.

(** The variables of a grid of [Nh] rows of [Mw], row by row. *)
Definition all_refs (Nh Mw : nat) : list ref :=
  range Nh ≫= (fun i => (fun j => (i, j)) <$> range Mw).

(** A cell with each subscript counted from the start of its axis. *)
Definition wrap_cell (Nh Mw : nat) (c : cell) : cell :=
  (c.1 `mod` Z.of_nat Nh, c.2 `mod` Z.of_nat Mw).

(** The subscripts that Python accepts on an axis of length [len]. *)
Definition subscript_ok (len : nat) (i : Z) : Prop :=
  - Z.of_nat len ≤ i < Z.of_nat len.

(** The name [make_variable] gives the variable at [r]. *)
Definition variable_name (r : ref) : string := "V" ++ str r.1 ++ "," ++ str r.2.

(** The values of a tuple at the free positions of a scope. *)
Fixpoint free_of (ovs : list (option pyval)) (t : list pyval) : list pyval :=
  match ovs, t with
  | Some _ :: ovs', _ :: t' => free_of ovs' t'
  | None :: ovs', x :: t' => x :: free_of ovs' t'
  | _, _ => []
  end.

(** The values [1], ..., [k], written without the program's comprehension. *)
Definition values_upto (k : nat) : list pyval := PInt <$> seqZ 1 (Z.of_nat k).

(** What one visit of [make_variable] is to do to a variable, for a cell of
    a room of size [k] with board entry [val]: with the entry [0] the
    values [1..k] are added to the domain; with any other entry the
    variable is assigned the entry, which becomes its only domain value. *)
Definition visit_effect (k : nat) (val : pyval) (v : CspVariable) : CspVariable :=
  if decide (val = PInt 0)
  then mkVariable (name v) (domain v ++ values_upto k) (assignedValue v)
  else mkVariable (name v) [val] (Some val).

(** * Properties *)

(** ** Python list primitives *)

Section list_primitives.
Context {A : Type}.
Implicit Types (l t : list A) (x : A).

Lemma py_insert_length i x l : length (py_insert i x l) = S (length l).
Proof.
  unfold py_insert. rewrite length_app. simpl.
  rewrite length_take, length_drop. lia.
Qed.

Lemma py_insert_lookup_at i x l :
  (i ≤ length l)%nat → py_insert i x l !! i = Some x.
Proof.
  intros Hi. unfold py_insert.
  rewrite lookup_app_r; rewrite length_take; [|lia].
  by replace (i - i `min` length l)%nat with 0%nat by lia.
Qed.

Lemma py_insert_lookup_before i x l q :
  (q < i)%nat → (q < length l)%nat → py_insert i x l !! q = l !! q.
Proof.
  intros Hq Hl. unfold py_insert.
  rewrite lookup_app_l by (rewrite length_take; lia).
  by apply lookup_take_lt.
Qed.

Lemma py_insert_perm i x l : py_insert i x l ≡ₚ x :: l.
Proof.
  unfold py_insert. rewrite <- Permutation_middle.
  by rewrite take_drop.
Qed.

Lemma py_insert_inj i x l1 l2 :
  py_insert i x l1 = py_insert i x l2 → l1 = l2.
Proof.
  intros Heq.
  assert (Hlen : length l1 = length l2).
  { apply (f_equal length) in Heq. rewrite !py_insert_length in Heq. lia. }
  unfold py_insert in Heq.
  apply app_inj_1 in Heq as [H1 H2].
  - injection H2 as H2. by rewrite <- (take_drop i l1), <- (take_drop i l2), H1, H2.
  - rewrite !length_take. lia.
Qed.
End list_primitives.

(** *** [list.remove] *)

Section list_remove.
Context {A : Type} `{EqDecision A}.
Implicit Types (l : list A) (x : A).

Lemma list_remove_notin x l : x ∉ l → list_remove x l = Raise ValueError.
Proof.
  induction l as [|y l IH]; simpl; [done|].
  intros Hx. apply not_elem_of_cons in Hx as [Hne Hx].
  destruct (decide (y = x)); [congruence|]. by rewrite IH.
Qed.

Lemma list_remove_in x l :
  x ∈ l → ∃ l', list_remove x l = Ok l' ∧ l ≡ₚ x :: l'.
Proof.
  induction l as [|y l IH]; simpl; [by intros ?%elem_of_nil|].
  intros Hx. destruct (decide (y = x)) as [->|Hne]; [by eexists|].
  apply elem_of_cons in Hx as [?|Hx]; [congruence|].
  destruct (IH Hx) as (l' & -> & Hp). eexists. split; [done|].
  rewrite Hp. apply Permutation_swap.
Qed.

Lemma list_remove_Ok x l l' :
  list_remove x l = Ok l' → x ∈ l ∧ l ≡ₚ x :: l'.
Proof.
  intros Hr. destruct (decide (x ∈ l)) as [Hx|Hx].
  - split; [done|]. destruct (list_remove_in x l Hx) as (l'' & Hr' & Hp).
    congruence.
  - rewrite list_remove_notin in Hr; done.
Qed.

Lemma list_remove_Raise x l e :
  list_remove x l = Raise e → e = ValueError ∧ x ∉ l.
Proof.
  intros Hr. destruct (decide (x ∈ l)) as [Hx|Hx].
  - destruct (list_remove_in x l Hx) as (l'' & Hr' & Hp). congruence.
  - rewrite list_remove_notin in Hr; [|done]. by injection Hr as <-.
Qed.
End list_remove.

(** *** [itertools.permutations] *)

Section permutations.
Context {A : Type}.
Implicit Types (l t : list A) (p : A * list A).

Lemma selections_fst l : (selections l).*1 = l.
Proof.
  induction l as [|x l IH]; simpl; [done|]. f_equal.
  rewrite <- list_fmap_compose. etrans; [|exact IH].
  by apply list_fmap_ext.
Qed.

Lemma selections_length l : length (selections l) = length l.
Proof. by rewrite <- (length_fmap fst), selections_fst. Qed.

Lemma selections_perm l p : p ∈ selections l → p.1 :: p.2 ≡ₚ l.
Proof.
  revert p. induction l as [|x l IH]; simpl; intros p Hp.
  { by apply elem_of_nil in Hp. }
  apply elem_of_cons in Hp as [->|Hp]; [done|].
  apply list_elem_of_fmap in Hp as (q & -> & Hq). simpl.
  rewrite Permutation_swap. by rewrite (IH q Hq).
Qed.

Lemma selections_rest_length l p : p ∈ selections l → S (length p.2) = length l.
Proof. intros Hp%selections_perm. by rewrite <- Hp. Qed.

Lemma selections_NoDup l : NoDup l → NoDup (selections l).
Proof.
  intros Hl. apply (NoDup_fmap_1 fst). by rewrite selections_fst.
Qed.

Lemma selections_fst_inj l p q :
  NoDup l → p ∈ selections l → q ∈ selections l → p.1 = q.1 → p = q.
Proof.
  intros Hl Hp Hq Heq.
  apply list_elem_of_lookup in Hp as [i Hi], Hq as [j Hj].
  assert (i = j) as ->; [|congruence].
  rewrite <- (selections_fst l) in Hl.
  apply (NoDup_lookup _ i j p.1 Hl); rewrite list_lookup_fmap.
  - by rewrite Hi.
  - by rewrite Hj, Heq.
Qed.

Lemma length_bind_const {B} (f : B → list (list A)) (L : list B) c :
  (∀ b, b ∈ L → length (f b) = c) → length (L ≫= f) = (length L * c)%nat.
Proof.
  induction L as [|b L IH]; intros Hc; [done|].
  rewrite bind_cons, length_app, Hc, IH; simpl.
  - done.
  - intros b' ?. apply Hc. by right.
  - by left.
Qed.

Lemma permutations_upto_length n l :
  length l = n → length (permutations_upto n l) = fact n.
Proof.
  revert l. induction n as [|n IH]; intros l Hl; [done|].
  simpl permutations_upto.
  rewrite (length_bind_const _ _ (fact n)).
  - rewrite selections_length, Hl. done.
  - intros p Hp. rewrite length_fmap. apply IH.
    apply selections_rest_length in Hp. lia.
Qed.

Lemma permutations_upto_elem n l t :
  length l = n → t ∈ permutations_upto n l ↔ t ≡ₚ l.
Proof.
  revert l t. induction n as [|n IH]; intros l t Hl.
  - apply nil_length_inv in Hl as ->. simpl.
    rewrite list_elem_of_singleton. split; [by intros ->|].
    by intros ?%Permutation_nil_r.
  - simpl. rewrite list_elem_of_bind. split.
    + intros (p & Ht & Hp). apply list_elem_of_fmap in Ht as (t' & -> & Ht').
      apply IH in Ht'.
      * rewrite Ht'. by apply selections_perm.
      * apply selections_rest_length in Hp. lia.
    + intros Ht. destruct t as [|x t'].
      { symmetry in Ht. apply Permutation_nil_r in Ht. by subst. }
      assert (Hx : x ∈ (selections l).*1).
      { rewrite selections_fst, <- Ht. by left. }
      apply list_elem_of_fmap in Hx as (p & -> & Hp).
      exists p. split; [|done]. apply list_elem_of_fmap_2.
      apply IH.
      * apply selections_rest_length in Hp. lia.
      * apply selections_perm in Hp. rewrite <- Hp in Ht.
        by apply Permutation_cons_inv in Ht.
Qed.

Lemma permutations_upto_NoDup n l :
  length l = n → NoDup l → NoDup (permutations_upto n l).
Proof.
  revert l. induction n as [|n IH]; intros l Hl Hnd.
  - simpl. apply NoDup_singleton.
  - simpl. apply NoDup_bind.
    + intros p q t Hp Hq Htp Htq.
      apply list_elem_of_fmap in Htp as (t1 & -> & _).
      apply list_elem_of_fmap in Htq as (t2 & [= Heq _] & _).
      by apply (selections_fst_inj l).
    + intros p Hp. apply NoDup_fmap_2; [apply _|].
      apply IH.
      * apply selections_rest_length in Hp. lia.
      * apply selections_perm in Hp. rewrite <- Hp in Hnd.
        by apply NoDup_cons in Hnd as [_ ?].
    + by apply selections_NoDup.
Qed.

Lemma permutations_length l : length (permutations l) = fact (length l).
Proof. by apply permutations_upto_length. Qed.

Lemma permutations_elem l t : t ∈ permutations l ↔ t ≡ₚ l.
Proof. by apply permutations_upto_elem. Qed.

Lemma permutations_NoDup l : NoDup l → NoDup (permutations l).
Proof. by apply permutations_upto_NoDup. Qed.
End permutations.

(** ** The monad *)

Lemma bind_Ok {A B} (m : M A) (k : A → M B) s b s' :
  bind m k s = Ok (b, s') ↔ ∃ a s1, m s = Ok (a, s1) ∧ k a s1 = Ok (b, s').
Proof.
  unfold bind. destruct (m s) as [[a s1]|e]; split.
  - intros H. by exists a, s1.
  - by intros (a' & s1' & [= -> ->] & H).
  - done.
  - by intros (a' & s1' & [=] & _).
Qed.

Lemma bind_Raise {A B} (m : M A) (k : A → M B) s e :
  bind m k s = Raise e ↔
  m s = Raise e ∨ ∃ a s1, m s = Ok (a, s1) ∧ k a s1 = Raise e.
Proof.
  unfold bind. destruct (m s) as [[a s1]|e']; split.
  - intros H. right. by exists a, s1.
  - intros [[=]|(a' & s1' & [= -> ->] & H)]. done.
  - intros [= ->]. by left.
  - intros [[= ->]|(a' & s1' & [=] & _)]. done.
Qed.

Lemma foldM_cons {A B} (body : B → A → M B) x l b s :
  foldM body (x :: l) b s =
  match body b x s with
  | Ok (b', s') => foldM body l b' s'
  | Raise e => Raise e
  end.
Proof. reflexivity. Qed.

Lemma bind_read_var {A B} (f : CspVariable → A) (k : A → M B) r s v :
  lookup_var s r = Some v → bind (read_var f r) k s = k (f v) s.
Proof. intros Hv. unfold bind, read_var. by rewrite Hv. Qed.

Lemma bind_lift {A B} (x : result A) (k : A → M B) s :
  bind (lift x) k s = match x with Ok a => k a s | Raise e => Raise e end.
Proof. unfold bind, lift. by destruct x. Qed.

Lemma foldM_app {A B} (body : B → A → M B) l1 l2 b s :
  foldM body (l1 ++ l2) b s =
  match foldM body l1 b s with
  | Ok (b', s') => foldM body l2 b' s'
  | Raise e => Raise e
  end.
Proof.
  revert b s. induction l1 as [|x l1 IH]; intros b s; simpl; [done|].
  unfold bind. destruct (body b x s) as [[b1 s1]|e]; [apply IH|done].
Qed.

(** *** Computations that only read the store *)

Lemma read_only_ret {A} (a : A) : read_only (ret a).
Proof. by intros s a' s' [= _ ->]. Qed.

Lemma read_only_lift {A} (r : result A) : read_only (lift r).
Proof. intros s a s'. unfold lift. destruct r; [by intros [= _ ->]|done]. Qed.

Lemma read_only_get_store : read_only get_store.
Proof. by intros s a s' [= _ ->]. Qed.

Lemma read_only_bind {A B} (m : M A) (k : A → M B) :
  read_only m → (∀ a, read_only (k a)) → read_only (bind m k).
Proof.
  intros Hm Hk s b s' (a & s1 & H1 & H2)%bind_Ok.
  apply Hm in H1 as ->. by apply Hk in H2.
Qed.

Lemma read_only_foldM {A B} (body : B → A → M B) l b :
  (∀ b x, read_only (body b x)) → read_only (foldM body l b).
Proof.
  intros Hbody. revert b. induction l as [|x l IH]; intros b; simpl.
  - apply read_only_ret.
  - apply read_only_bind; [apply Hbody|]. intros b'. apply IH.
Qed.

Lemma read_only_mapM {A B} (f : A → M B) l :
  (∀ x, read_only (f x)) → read_only (mapM f l).
Proof.
  intros Hf. induction l as [|x l IH]; simpl.
  - apply read_only_ret.
  - apply read_only_bind; [apply Hf|]. intros y.
    apply read_only_bind; [apply IH|]. intros ys. apply read_only_ret.
Qed.

Lemma read_only_read_var {A} (f : CspVariable → A) r : read_only (read_var f r).
Proof.
  intros s a s'. unfold read_var.
  destruct (lookup_var s r); [by intros [= _ ->]|done].
Qed.

Lemma read_only_subscript2 i j : read_only (subscript2 i j).
Proof.
  intros s a s'. unfold subscript2.
  repeat case_match; try done. by intros [= _ ->].
Qed.

Lemma read_only_if {A} (c : bool) (m1 m2 : M A) :
  read_only m1 → read_only m2 → read_only (if c then m1 else m2).
Proof. by destruct c. Qed.

Lemma read_only_decide {A} (P : Prop) `{Decision P} (m1 m2 : M A) :
  read_only m1 → read_only m2 → read_only (if decide P then m1 else m2).
Proof. by destruct (decide P). Qed.

Create HintDb read_only.
#[local] Hint Resolve read_only_ret read_only_lift read_only_get_store
  read_only_read_var read_only_subscript2 : read_only.

Ltac read_only_step :=
  first
    [ apply read_only_bind; [|intros ?]
    | apply read_only_foldM; intros ? ?
    | apply read_only_mapM; intros ?
    | apply read_only_if
    | apply read_only_decide
    | progress (unfold var_name, var_is_assigned, var_get_assigned_value)
    | solve [auto with read_only] ].

Ltac solve_read_only := repeat (read_only_step || case_match).

Lemma read_only_room_constraint room k : read_only (room_constraint room k).
Proof. unfold room_constraint. solve_read_only. Qed.

Lemma read_only_sweep tables R lines len at_ acc :
  read_only (sweep tables R lines len at_ acc).
Proof.
  unfold sweep. solve_read_only.
Qed.

(** [space_constraint] is its table computation followed by the sweep of
    the rows and the sweep of the columns. *)
Lemma space_constraint_unfold R Mw Nh s :
  space_constraint R Mw Nh s =
  (tables <- lift (n_dist_tuples R) ;;
   space_cons <- sweep tables R Nh Mw (fun i a => (Z.of_nat i, Z.of_nat a)) [] ;;
   sweep tables R Mw Nh (fun i a => (Z.of_nat a, Z.of_nat i)) space_cons) s.
Proof. reflexivity. Qed.

Lemma read_only_space_constraint R Mw Nh : read_only (space_constraint R Mw Nh).
Proof.
  intros s a s'. rewrite space_constraint_unfold. revert s a s'.
  solve_read_only; apply read_only_sweep.
Qed.

(** ** Subscripts and the grid *)

Lemma py_pos_Some len i p :
  py_pos len i = Some p ↔
  (0 ≤ i < Z.of_nat len ∧ p = Z.to_nat i) ∨
  (- Z.of_nat len ≤ i < 0 ∧ p = Z.to_nat (Z.of_nat len + i)).
Proof.
  unfold py_pos. repeat case_bool_decide; split;
    try (intros [= <-]); try (intros [[? ->]|[? ->]]); try done; lia.
Qed.

Lemma py_pos_lt len i p : py_pos len i = Some p → (p < len)%nat.
Proof. rewrite py_pos_Some. lia. Qed.

Lemma py_pos_of_nat len n :
  (n < len)%nat → py_pos len (Z.of_nat n) = Some n.
Proof. intros Hn. apply py_pos_Some. left. lia. Qed.

Lemma py_index_of_nat {A} (l : list A) n x :
  l !! n = Some x → py_index l (Z.of_nat n) = Ok x.
Proof.
  intros Hx. unfold py_index.
  rewrite py_pos_of_nat by (by eapply lookup_lt_Some). by rewrite Hx.
Qed.

Lemma py_index_Raise {A} (l : list A) i e : py_index l i = Raise e → e = IndexError.
Proof. unfold py_index. repeat case_match; congruence. Qed.

Lemma board_at_Raise b x y e : board_at b x y = Raise e → e = IndexError.
Proof.
  unfold board_at. destruct (py_index b x) eqn:Hr.
  - apply py_index_Raise.
  - intros [= <-]. by apply py_index_Raise in Hr.
Qed.

Lemma resolve_rect Nh Mw s c : rect Nh Mw s → resolve s c = cell_ref Nh Mw c.
Proof.
  intros [Hlen Hrows]. unfold resolve, cell_ref. rewrite Hlen.
  destruct (py_pos Nh c.1) as [p|] eqn:Hp; [|done].
  destruct (s !! p) as [row|] eqn:Hrow.
  - by rewrite (Forall_lookup_1 _ _ _ _ Hrows Hrow).
  - apply py_pos_lt in Hp. apply lookup_ge_None in Hrow. lia.
Qed.

Lemma resolve_lookup s c r : resolve s c = Some r → is_Some (lookup_var s r).
Proof.
  unfold resolve, lookup_var.
  destruct (py_pos (length s) c.1) as [p|]; [|done].
  destruct (s !! p) as [row|] eqn:Hrow; [|done].
  destruct (py_pos (length row) c.2) as [q|] eqn:Hq; [|done].
  intros [= <-]. simpl. rewrite Hrow.
  apply lookup_lt_is_Some. by eapply py_pos_lt.
Qed.

Lemma subscript2_resolve i j s :
  subscript2 i j s =
  match resolve s (i, j) with
  | Some r => Ok (r, s)
  | None => Raise IndexError
  end.
Proof. unfold subscript2, resolve. simpl. by repeat case_match. Qed.

Lemma cell_ref_of_nat Nh Mw i j :
  (i < Nh)%nat → (j < Mw)%nat → cell_ref Nh Mw (Z.of_nat i, Z.of_nat j) = Some (i, j).
Proof. intros Hi Hj. unfold cell_ref. simpl. by rewrite !py_pos_of_nat. Qed.

Lemma cell_ref_bounds Nh Mw c r :
  cell_ref Nh Mw c = Some r → (r.1 < Nh)%nat ∧ (r.2 < Mw)%nat.
Proof.
  unfold cell_ref. destruct (py_pos Nh c.1) eqn:H1; [|done].
  destruct (py_pos Mw c.2) eqn:H2; [|done]. intros [= <-]. simpl.
  eauto using py_pos_lt.
Qed.

Lemma lookup_var_rect Nh Mw s r :
  rect Nh Mw s → is_Some (lookup_var s r) ↔ (r.1 < Nh)%nat ∧ (r.2 < Mw)%nat.
Proof.
  intros [Hlen Hrows]. unfold lookup_var.
  destruct (s !! r.1) as [row|] eqn:Hrow.
  - rewrite lookup_lt_is_Some, (Forall_lookup_1 _ _ _ _ Hrows Hrow).
    apply lookup_lt_Some in Hrow. lia.
  - apply lookup_ge_None in Hrow. split; [by intros [? ?]|lia].
Qed.

Lemma update_var_rect Nh Mw f r s : rect Nh Mw s → rect Nh Mw (update_var f r s).
Proof.
  intros [Hlen Hrows]. unfold update_var. split.
  - by rewrite length_alter.
  - apply Forall_alter; [done|]. intros row _ Hrow. simpl.
    by rewrite length_alter.
Qed.

Lemma lookup_update_var_eq f r s :
  lookup_var (update_var f r s) r = f <$> lookup_var s r.
Proof.
  unfold lookup_var, update_var. rewrite list_lookup_alter_eq.
  destruct (s !! r.1) as [row|]; simpl; [|done].
  by rewrite list_lookup_alter_eq.
Qed.

Lemma lookup_update_var_ne f r r' s :
  r ≠ r' → lookup_var (update_var f r s) r' = lookup_var s r'.
Proof.
  intros Hne. unfold lookup_var, update_var.
  destruct (decide (r.1 = r'.1)) as [Heq|Hrow].
  - rewrite <- Heq, list_lookup_alter_eq.
    destruct (s !! r.1) as [row|]; simpl; [|done].
    rewrite list_lookup_alter_ne; [done|].
    intros Hc. apply Hne. destruct r, r'; simpl in *; congruence.
  - by rewrite list_lookup_alter_ne.
Qed.

Lemma update_var_compose f g r s :
  update_var f r (update_var g r s) = update_var (f ∘ g) r s.
Proof.
  unfold update_var. rewrite list_alter_alter_eq.
  apply list_alter_ext; [|done]. intros row _. simpl.
  apply list_alter_alter_eq.
Qed.

Lemma write_var_Some f r s v :
  lookup_var s r = Some v → write_var f r s = Ok (tt, update_var f r s).
Proof. intros Hv. unfold write_var. by rewrite Hv. Qed.

(** ** [make_variable] *)

Lemma make_variable_unfold b rooms Mw Nh s :
  make_variable b rooms Mw Nh s =
  for_ rooms (fun room => for_ room (make_variable_body b (length room)))
       (fresh_grid Mw Nh).
Proof. reflexivity. Qed.

Lemma make_variable_body_spec b k c s :
  make_variable_body b k c s =
  match resolve s c with
  | None => Raise IndexError
  | Some r =>
      match board_at b (c.1 * 2) (c.2 * 2) with
      | Ok val => Ok (tt, update_var (touch k val) r s)
      | Raise e => Raise e
      end
  end.
Proof.
  destruct c as [i j]. unfold make_variable_body, bind.
  rewrite subscript2_resolve. simpl.
  destruct (resolve s (i, j)) as [r|] eqn:Hr; [|done].
  destruct (resolve_lookup _ _ _ Hr) as [v Hv].
  unfold var_add_domain_values, var_assign, var_set_domain.
  rewrite (write_var_Some _ _ _ _ Hv). unfold lift.
  destruct (board_at b (i * 2) (j * 2)) as [val|e]; [|done].
  unfold touch. destruct (decide (val ≠ PInt 0)); [|done].
  erewrite write_var_Some by (by rewrite lookup_update_var_eq, Hv).
  erewrite write_var_Some by (by rewrite !lookup_update_var_eq, Hv).
  by rewrite !update_var_compose.
Qed.

Lemma for_app {A} (body : A → M unit) l1 l2 s :
  for_ (l1 ++ l2) body s =
  match for_ l1 body s with
  | Ok (_, s') => for_ l2 body s'
  | Raise e => Raise e
  end.
Proof.
  unfold for_. rewrite foldM_app.
  by destruct (foldM _ l1 tt s) as [[[] s']|e].
Qed.

Lemma for_cons {A} (body : A → M unit) x l s :
  for_ (x :: l) body s =
  match body x s with
  | Ok (_, s') => for_ l body s'
  | Raise e => Raise e
  end.
Proof.
  unfold for_. simpl. unfold bind. by destruct (body x s) as [[[] s']|e].
Qed.

Lemma for_fmap {A B} (f : A → B) (body : B → M unit) l s :
  for_ (f <$> l) body s = for_ l (fun x => body (f x)) s.
Proof.
  unfold for_. revert s. induction l as [|x l IH]; intros s; simpl; [done|].
  unfold bind. destruct (body (f x) s) as [[[] s']|e]; [apply IH|done].
Qed.

Lemma make_variable_loops_flat b rooms s :
  for_ rooms (fun room => for_ room (make_variable_body b (length room))) s =
  for_ (tagged_cells rooms) (fun kc => make_variable_body b kc.1 kc.2) s.
Proof.
  unfold tagged_cells. revert s.
  induction rooms as [|room rooms IH]; intros s; [done|].
  rewrite bind_cons, for_app, for_fmap, for_cons. simpl.
  destruct (for_ room _ s) as [[[] s']|e]; [apply IH|done].
Qed.

Lemma tagged_cells_snd rooms : (tagged_cells rooms).*2 = concat rooms.
Proof.
  unfold tagged_cells. induction rooms as [|room rooms IH]; [done|].
  rewrite bind_cons, fmap_app, IH. simpl. f_equal.
  rewrite <- list_fmap_compose. by rewrite <- (list_fmap_id room) at 2.
Qed.

Lemma tagged_cells_elem rooms room c :
  room ∈ rooms → c ∈ room → (length room, c) ∈ tagged_cells rooms.
Proof.
  intros Hroom Hc. unfold tagged_cells. apply list_elem_of_bind.
  exists room. split; [|done]. by apply (list_elem_of_fmap_2 (λ c, (length room, c))).
Qed.

Lemma tagged_cells_elem_inv rooms kc :
  kc ∈ tagged_cells rooms → ∃ room, room ∈ rooms ∧ kc.2 ∈ room ∧ kc.1 = length room.
Proof.
  unfold tagged_cells. intros (room & Hkc & Hroom)%list_elem_of_bind.
  apply list_elem_of_fmap in Hkc as (c & -> & Hc). by exists room.
Qed.

Section filter_count.
Context {A B : Type} (P : B → Prop) `{∀ y, Decision (P y)}.

Lemma length_filter_fmap (f : A → B) (l : list A) :
  length (filter (P ∘ f) l) = length (filter P (f <$> l)).
Proof.
  induction l as [|x l IH]; [done|]. rewrite fmap_cons, !filter_cons. simpl.
  destruct (decide (P (f x))); simpl; by rewrite IH.
Qed.

Lemma length_filter_0 (l : list B) :
  length (filter P l) = 0%nat ↔ Forall (λ y, ¬ P y) l.
Proof.
  induction l as [|x l IH]; [by split|]. rewrite filter_cons.
  destruct (decide (P x)); simpl.
  - split; [done|]. by intros [? _]%Forall_cons.
  - rewrite IH. split; [by constructor|]. by intros [_ ?]%Forall_cons.
Qed.

Lemma filter_once_split (l : list B) y :
  y ∈ l → P y → length (filter P l) = 1%nat →
  ∃ l1 l2, l = l1 ++ y :: l2 ∧ Forall (λ y, ¬ P y) l1 ∧ Forall (λ y, ¬ P y) l2.
Proof.
  intros (l1 & l2 & ->)%list_elem_of_split Hy Hcount.
  exists l1, l2. split; [done|].
  rewrite filter_app, filter_cons_True, length_app in Hcount by done.
  simpl in Hcount. rewrite <- !length_filter_0. lia.
Qed.
End filter_count.

(** The loop of [make_variable] over the cells [l], started in a grid of
    [Nh] rows of [Mw] variables. *)
Section make_variable_loop.
Context (b : board) (Nh Mw : nat).

Local Abbreviation loop l :=
  (for_ l (fun visit => make_variable_body b visit.1 visit.2)).

Lemma loop_cons kc l s :
  loop (kc :: l) s =
  match make_variable_body b kc.1 kc.2 s with
  | Ok (_, s') => loop l s'
  | Raise e => Raise e
  end.
Proof. apply (for_cons (fun visit => make_variable_body b visit.1 visit.2)). Qed.

Lemma body_rect kc s u s' :
  rect Nh Mw s → make_variable_body b kc.1 kc.2 s = Ok (u, s') →
  rect Nh Mw s' ∧
  ∃ r val, cell_ref Nh Mw kc.2 = Some r ∧
           board_at b (kc.2.1 * 2) (kc.2.2 * 2) = Ok val ∧
           s' = update_var (touch kc.1 val) r s.
Proof.
  intros Hrect. rewrite make_variable_body_spec, (resolve_rect Nh Mw) by done.
  destruct (cell_ref Nh Mw kc.2) as [r|]; [|done].
  destruct (board_at _ _ _) as [val|]; [|done]. intros [= _ <-].
  split; [by apply update_var_rect|]. by exists r, val.
Qed.

Lemma body_raise kc s e :
  make_variable_body b kc.1 kc.2 s = Raise e → e = IndexError.
Proof.
  rewrite make_variable_body_spec. destruct (resolve s kc.2); [|congruence].
  destruct (board_at _ _ _) eqn:Hb; [done|]. intros [= <-].
  by apply board_at_Raise in Hb.
Qed.

Lemma loop_rect l s u s' :
  rect Nh Mw s → loop l s = Ok (u, s') → rect Nh Mw s'.
Proof.
  revert s. induction l as [|kc l IH]; intros s Hrect.
  - by intros [= _ <-].
  - rewrite loop_cons.
    destruct (make_variable_body _ _ _ s) as [[[] s1]|] eqn:Hb; [|done].
    apply body_rect in Hb as [Hrect1 _]; [|done]. by apply IH.
Qed.

Lemma loop_raise l s e : loop l s = Raise e → e = IndexError.
Proof.
  revert s. induction l as [|kc l IH]; intros s; [done|].
  rewrite loop_cons.
  destruct (make_variable_body _ _ _ s) as [[[] s1]|] eqn:Hb; [apply IH|].
  intros [= <-]. by apply body_raise in Hb.
Qed.

(** A variable that no cell of [l] designates is left alone. *)
Lemma loop_untouched l r s u s' :
  rect Nh Mw s → Forall (λ kc, ¬ cell_ref Nh Mw kc.2 = Some r) l →
  loop l s = Ok (u, s') → lookup_var s' r = lookup_var s r.
Proof.
  revert s. induction l as [|kc l IH]; intros s Hrect Hl.
  - by intros [= _ <-].
  - rewrite loop_cons. apply Forall_cons in Hl as [Hkc Hl].
    destruct (make_variable_body _ _ _ s) as [[[] s1]|] eqn:Hb; [|done].
    apply body_rect in Hb as (Hrect1 & r1 & val & Hr1 & _ & ->); [|done].
    intros Hloop. rewrite (IH _ Hrect1 Hl Hloop).
    apply lookup_update_var_ne. congruence.
Qed.

(** A cell whose subscripts fall outside the grid stops the loop. *)
Lemma loop_out_of_grid l s kc :
  rect Nh Mw s → kc ∈ l → cell_ref Nh Mw kc.2 = None →
  loop l s = Raise IndexError.
Proof.
  revert s. induction l as [|kc' l IH]; intros s Hrect Hin Hnone.
  { by apply elem_of_nil in Hin. }
  rewrite loop_cons.
  destruct (make_variable_body _ _ _ s) as [[[] s1]|e] eqn:Hb.
  - apply elem_of_cons in Hin as [<-|Hin].
    + apply body_rect in Hb as (_ & r & val & Hr & _); [congruence|done].
    + apply body_rect in Hb as [Hrect1 _]; [|done]. by apply IH.
  - by apply body_raise in Hb as ->.
Qed.

(** The loop runs to its end when every cell designates a variable and a
    board entry. *)
Lemma loop_succeeds l s :
  rect Nh Mw s →
  Forall (λ kc, is_Some (cell_ref Nh Mw kc.2) ∧
                ∃ val, board_at b (kc.2.1 * 2) (kc.2.2 * 2) = Ok val) l →
  ∃ s', loop l s = Ok (tt, s').
Proof.
  revert s. induction l as [|kc l IH]; intros s Hrect Hl.
  - by exists s.
  - apply Forall_cons in Hl as [([r Hr] & val & Hval) Hl].
    rewrite loop_cons, make_variable_body_spec, (resolve_rect Nh Mw), Hr, Hval by done.
    apply IH; [|done]. by apply update_var_rect.
Qed.

(** The cell visited once: its variable ends as that visit leaves it. *)
Lemma loop_touched_once l1 kc l2 r s u s' :
  rect Nh Mw s →
  cell_ref Nh Mw kc.2 = Some r →
  Forall (λ kc', ¬ cell_ref Nh Mw kc'.2 = Some r) l1 →
  Forall (λ kc', ¬ cell_ref Nh Mw kc'.2 = Some r) l2 →
  loop (l1 ++ kc :: l2) s = Ok (u, s') →
  ∃ val, board_at b (kc.2.1 * 2) (kc.2.2 * 2) = Ok val ∧
         lookup_var s' r = touch kc.1 val <$> lookup_var s r.
Proof.
  intros Hrect Hr Hl1 Hl2. rewrite for_app.
  destruct (loop l1 s) as [[[] s1]|] eqn:H1; [|done].
  rewrite loop_cons.
  destruct (make_variable_body _ _ _ s1) as [[[] s2]|] eqn:Hb; [|done].
  intros H2.
  pose proof (loop_rect _ _ _ _ Hrect H1) as Hrect1.
  apply body_rect in Hb as (Hrect2 & r' & val & Hr' & Hval & ->); [|done].
  exists val. split; [done|].
  rewrite (loop_untouched _ _ _ _ _ Hrect2 Hl2 H2).
  assert (r' = r) as -> by congruence.
  rewrite lookup_update_var_eq. f_equal.
  by apply (loop_untouched l1 r s tt s1).
Qed.
End make_variable_loop.

Lemma fresh_grid_rect Mw Nh : rect Nh Mw (fresh_grid Mw Nh).
Proof.
  unfold fresh_grid, range. split.
  - by rewrite length_fmap, length_seq.
  - apply Forall_fmap, Forall_forall. intros i _. simpl.
    by rewrite length_fmap, length_seq.
Qed.

Lemma fresh_grid_lookup Mw Nh i j :
  (i < Nh)%nat → (j < Mw)%nat →
  lookup_var (fresh_grid Mw Nh) (i, j) = Some (new_variable ("V" ++ str i ++ "," ++ str j)).
Proof.
  intros Hi Hj. unfold lookup_var, fresh_grid, range. simpl.
  rewrite list_lookup_fmap, lookup_seq_lt by done. simpl.
  by rewrite list_lookup_fmap, lookup_seq_lt by done.
Qed.

Lemma py_index_0 {A} (l : list A) :
  py_index l 0 = match l !! 0%nat with Some x => Ok x | None => Raise IndexError end.
Proof. by destruct l. Qed.

(** The model builder, as the sequence of its phases. *)
Lemma model_unfold b rooms s :
  ripple_effect_csp_model b rooms s =
  match b !! 0%nat with
  | None => Raise IndexError
  | Some _ =>
      let Mw := board_width b in
      let Nh := board_height b in
      match make_variable b rooms Mw Nh s with
      | Raise e => Raise e
      | Ok (_, s1) =>
          (room_cons <- mapM (fun p => room_constraint p.2 (p.1 + 1)) (enumerate rooms) ;;
           max_rsize <- lift (py_max (length <$> rooms)) ;;
           space_cons <- space_constraint max_rsize Mw Nh ;;
           let csp := new_csp "Ripple_Effect" in
           grid <- get_store ;;
           let csp := foldl (fun csp row => foldl (fun csp var => add_var var csp) csp row)
                            csp (grid_refs grid) in
           let csp := foldl (fun csp room => add_room room csp) csp rooms in
           let csp := foldl (fun csp c => add_constraint c csp) csp room_cons in
           let csp := foldl (fun csp c => add_constraint c csp) csp space_cons in
           ret csp) s1
      end
  end.
Proof.
  unfold ripple_effect_csp_model, bind at 1, lift. rewrite py_index_0.
  unfold board_width, board_height.
  destruct (b !! 0%nat) as [row0|]; [|done]. simpl.
  unfold bind at 1. by destruct (make_variable _ _ _ _ s) as [[[] s1]|].
Qed.

Lemma one_to_values_upto k : one_to k = values_upto k.
Proof.
  unfold one_to, values_upto, seqZ, range.
  rewrite <- list_fmap_compose, Nat2Z.id. by apply list_fmap_ext.
Qed.

(** C6: after [make_variable], a cell of a room of size [k] that the room
    lists mention once has, when its board entry is [0], the domain
    [1, ..., k] and no assignment, and otherwise the board entry as its
    assignment and as its only domain value. *)
Theorem make_variable_sets_cell b rooms Mw Nh s0 va room c r :
  make_variable b rooms Mw Nh s0 = Ok (tt, va) →
  room ∈ rooms → c ∈ room →
  cell_ref Nh Mw c = Some r →
  length (filter (λ c', cell_ref Nh Mw c' = Some r) (concat rooms)) = 1%nat →
  ∃ v val,
    lookup_var va r = Some v ∧ board_at b (c.1 * 2) (c.2 * 2) = Ok val ∧
    (val = PInt 0 →
       domain v = PInt <$> seqZ 1 (Z.of_nat (length room)) ∧
       assignedValue v = None) ∧
    (val ≠ PInt 0 → domain v = [val] ∧ assignedValue v = Some val).
Proof.
  intros Hmv Hroom Hc Hr Hcount.
  rewrite make_variable_unfold, make_variable_loops_flat in Hmv.
  rewrite <- tagged_cells_snd in Hcount.
  rewrite <- (length_filter_fmap (λ c', cell_ref Nh Mw c' = Some r)) in Hcount.
  destruct (filter_once_split _ _ (length room, c)
              (tagged_cells_elem _ _ _ Hroom Hc) Hr Hcount)
    as (l1 & l2 & Hsplit & Hl1 & Hl2).
  rewrite Hsplit in Hmv.
  destruct (loop_touched_once b Nh Mw l1 (length room, c) l2 r _ _ _
              (fresh_grid_rect Mw Nh) Hr Hl1 Hl2 Hmv) as (val & Hval & Hlook).
  destruct (cell_ref_bounds _ _ _ _ Hr) as [Hi Hj]. destruct r as [i j].
  rewrite fresh_grid_lookup in Hlook by done. simpl in Hlook.
  eexists _, val. split; [exact Hlook|]. split; [exact Hval|].
  unfold touch. split; intros Hv; destruct (decide (val ≠ PInt 0)); try done.
  simpl. split; [|done]. apply one_to_values_upto.
Qed.

Lemma make_variable_sets_cell_witness :
  (∃ v val,
     lookup_var [[mkVariable "V0,0" [PInt 1; PInt 2; PInt 3] None;
                  mkVariable "V0,1" [PInt 2] (Some (PInt 2));
                  mkVariable "V0,2" [PInt 1; PInt 2; PInt 3] None]]
       (0%nat, 0%nat) = Some v ∧
     board_at row3_board (0 * 2) (0 * 2) = Ok val ∧
     (val = PInt 0 → domain v = PInt <$> seqZ 1 3 ∧ assignedValue v = None) ∧
     (val ≠ PInt 0 → domain v = [val] ∧ assignedValue v = Some val)) ∧
  (∃ v val,
     lookup_var [[mkVariable "V0,0" [PInt 1; PInt 2; PInt 3] None;
                  mkVariable "V0,1" [PInt 2] (Some (PInt 2));
                  mkVariable "V0,2" [PInt 1; PInt 2; PInt 3] None]]
       (0%nat, 1%nat) = Some v ∧
     board_at row3_board (0 * 2) (1 * 2) = Ok val ∧
     (val = PInt 0 → domain v = PInt <$> seqZ 1 3 ∧ assignedValue v = None) ∧
     (val ≠ PInt 0 → domain v = [val] ∧ assignedValue v = Some val)).
Proof.
  split.
  - apply (make_variable_sets_cell row3_board row3_rooms 3 1 []
             [[mkVariable "V0,0" [PInt 1; PInt 2; PInt 3] None;
               mkVariable "V0,1" [PInt 2] (Some (PInt 2));
               mkVariable "V0,2" [PInt 1; PInt 2; PInt 3] None]]
             [(0, 0); (0, 1); (0, 2)] (0, 0) (0%nat, 0%nat)).
    + vm_compute. reflexivity.
    + vm_compute. repeat constructor.
    + vm_compute. repeat constructor.
    + vm_compute. reflexivity.
    + vm_compute. reflexivity.
  - apply (make_variable_sets_cell row3_board row3_rooms 3 1 []
             [[mkVariable "V0,0" [PInt 1; PInt 2; PInt 3] None;
               mkVariable "V0,1" [PInt 2] (Some (PInt 2));
               mkVariable "V0,2" [PInt 1; PInt 2; PInt 3] None]]
             [(0, 0); (0, 1); (0, 2)] (0, 1) (0%nat, 1%nat)).
    + vm_compute. reflexivity.
    + vm_compute. repeat constructor.
    + vm_compute. repeat constructor.
    + vm_compute. reflexivity.
    + vm_compute. reflexivity.
Defined.

(** A cell that the grid or the board rejects as a subscript stops the
    loop of [make_variable]. *)
Lemma loop_rejected_cell b Nh Mw l s kc :
  rect Nh Mw s → kc ∈ l →
  cell_ref Nh Mw kc.2 = None ∨
  board_at b (kc.2.1 * 2) (kc.2.2 * 2) = Raise IndexError →
  for_ l (fun visit => make_variable_body b visit.1 visit.2) s = Raise IndexError.
Proof.
  revert s. induction l as [|kc' l IH]; intros s Hrect Hin Hbad.
  { by apply elem_of_nil in Hin. }
  rewrite (loop_cons b).
  destruct (make_variable_body _ _ _ s) as [[[] s1]|e] eqn:Hb.
  - apply elem_of_cons in Hin as [<-|Hin].
    + apply (body_rect b Nh Mw) in Hb as (_ & r & val & Hr & Hval & _); [|done].
      destruct Hbad; congruence.
    + apply (body_rect b Nh Mw) in Hb as [Hrect1 _]; [|done]. by apply IH.
  - by apply body_raise in Hb as ->.
Qed.

(** C7, as far as the code goes: a room cell [(i, j)] that Python rejects
    as a subscript, of the grid ([i >= N], [i < -N], [j >= M] or [j < -M])
    or of the board ([board[2i][2j]] raises [IndexError]), makes
    [make_variable], and with it the construction of the model, stop with
    [IndexError]; no grid is returned. *)
Theorem out_of_range_cell_raises b rooms room c s0 :
  room ∈ rooms → c ∈ room →
  (Z.of_nat (board_height b) ≤ c.1 ∨ c.1 < - Z.of_nat (board_height b) ∨
   Z.of_nat (board_width b) ≤ c.2 ∨ c.2 < - Z.of_nat (board_width b)) ∨
  board_at b (c.1 * 2) (c.2 * 2) = Raise IndexError →
  make_variable b rooms (board_width b) (board_height b) s0 = Raise IndexError ∧
  ripple_effect_csp_model b rooms s0 = Raise IndexError.
Proof.
  intros Hroom Hc Hout.
  assert (Hmv : make_variable b rooms (board_width b) (board_height b) s0
                = Raise IndexError).
  { rewrite make_variable_unfold, make_variable_loops_flat.
    apply (loop_rejected_cell b (board_height b) (board_width b) _ _ (length room, c)).
    - apply fresh_grid_rect.
    - by apply tagged_cells_elem.
    - destruct Hout as [Hgrid|Hboard]; [left|by right].
      unfold cell_ref. simpl.
      destruct (py_pos (board_height b) c.1) eqn:H1;
        destruct (py_pos (board_width b) c.2) eqn:H2; try done.
      apply py_pos_Some in H1, H2. lia. }
  split; [done|]. rewrite model_unfold. destruct (b !! 0%nat); [|done].
  simpl. by rewrite Hmv.
Qed.

Lemma out_of_range_cell_raises_witness :
  (make_variable row3_board [[(0, 0); (0, 3)]]
     (board_width row3_board) (board_height row3_board) [] = Raise IndexError ∧
   ripple_effect_csp_model row3_board [[(0, 0); (0, 3)]] [] = Raise IndexError) ∧
  (make_variable blank_board [[(0, 0); (-2, 0)]]
     (board_width blank_board) (board_height blank_board) [] = Raise IndexError ∧
   ripple_effect_csp_model blank_board [[(0, 0); (-2, 0)]] [] = Raise IndexError).
Proof.
  split.
  - apply (out_of_range_cell_raises row3_board [[(0, 0); (0, 3)]]
             [(0, 0); (0, 3)] (0, 3) []).
    + vm_compute. repeat constructor.
    + vm_compute. repeat constructor.
    + left. vm_compute. right. right. left. discriminate.
  - apply (out_of_range_cell_raises blank_board [[(0, 0); (-2, 0)]]
             [(0, 0); (-2, 0)] (-2, 0) []).
    + vm_compute. repeat constructor.
    + vm_compute. repeat constructor.
    + right. vm_compute. reflexivity.
Defined.

(** C7 fails for negative subscripts: on the blank 2 x 2 board the room cell
    [(-1, -1)] lies outside the grid, yet [make_variable] returns a grid, in
    which the variable of cell [(1, 1)] has been given the separator mark
    read at [board[-2][-2]]; the construction of the model then stops in
    [room_constraint] with [ValueError], not with an out-of-bounds error. *)
Lemma wrapped_cell_not_rejected :
  board_height blank_board = 2%nat ∧ board_width blank_board = 2%nat ∧
  make_variable blank_board wrapping_rooms 2 2 [] =
    Ok (tt, [[mkVariable "V0,0" [PInt 1; PInt 2; PInt 3; PInt 4] None;
              mkVariable "V0,1" [PInt 1; PInt 2; PInt 3; PInt 4] None];
             [mkVariable "V1,0" [PInt 1; PInt 2; PInt 3; PInt 4] None;
              mkVariable "V1,1" [PStr " "] (Some (PStr " "))]]) ∧
  run_model blank_board wrapping_rooms = Raise ValueError.
Proof. vm_compute. auto. Qed.

(** ** [room_constraint] *)

Lemma remove_all_Ok vals it it' : remove_all vals it = Ok it' → it ≡ₚ vals ++ it'.
Proof.
  revert it. induction vals as [|v vals IH]; intros it; simpl.
  - by intros [= ->].
  - destruct (list_remove v it) as [it1|] eqn:Hr; [|done].
    apply list_remove_Ok in Hr as [_ Hp]. intros H1%IH.
    by rewrite Hp, H1.
Qed.

Lemma remove_all_Raise vals it e : remove_all vals it = Raise e → e = ValueError.
Proof.
  revert it. induction vals as [|v vals IH]; intros it; simpl; [done|].
  destruct (list_remove v it) as [it1|] eqn:Hr; [apply IH|].
  intros [= <-]. by apply list_remove_Raise in Hr as [-> _].
Qed.

Lemma remove_all_succeeds vals it :
  NoDup vals → (∀ v, v ∈ vals → v ∈ it) → ∃ it', remove_all vals it = Ok it'.
Proof.
  revert it. induction vals as [|v vals IH]; intros it Hnd Hsub; simpl.
  - by exists it.
  - apply NoDup_cons in Hnd as [Hv Hnd].
    destruct (list_remove_in v it) as (it1 & -> & Hp); [apply Hsub; by left|].
    apply IH; [done|]. intros w Hw.
    assert (Hin : w ∈ it) by (apply Hsub; by right).
    rewrite Hp in Hin. apply elem_of_cons in Hin as [->|]; done.
Qed.

Lemma remove_all_fails vals it :
  NoDup it → ¬ (NoDup vals ∧ ∀ v, v ∈ vals → v ∈ it) →
  remove_all vals it = Raise ValueError.
Proof.
  intros Hit Hbad. destruct (remove_all vals it) as [it'|e] eqn:Hr.
  - exfalso. apply Hbad. apply remove_all_Ok in Hr. rewrite Hr in Hit.
    apply NoDup_app in Hit as (? & _ & _). split; [done|].
    intros v Hv. rewrite Hr. apply elem_of_app. by left.
  - by apply remove_all_Raise in Hr as ->.
Qed.

Lemma resolve_all_lookup s room sc :
  resolve_all s room = Some sc → Forall (λ r, is_Some (lookup_var s r)) sc.
Proof.
  revert sc. induction room as [|c room IH]; intros sc; simpl.
  - by intros [= <-].
  - destruct (resolve s c) as [r|] eqn:Hr; [|done].
    destruct (resolve_all s room) as [rs|]; [|done]. intros [= <-].
    constructor; [by eapply resolve_lookup|by apply IH].
Qed.

Lemma resolve_all_length s room sc :
  resolve_all s room = Some sc → length sc = length room.
Proof.
  revert sc. induction room as [|c room IH]; intros sc; simpl.
  - by intros [= <-].
  - destruct (resolve s c) as [r|]; [|done].
    destruct (resolve_all s room) as [rs|]; [|done]. intros [= <-].
    simpl. f_equal. by apply IH.
Qed.

Lemma scope_loop room acc s :
  foldM (fun scope c =>
           let '(i, j) := c in
           var <- subscript2 i j ;;
           ret (scope ++ [var])) room acc s =
  match resolve_all s room with
  | Some rs => Ok (acc ++ rs, s)
  | None => Raise IndexError
  end.
Proof.
  revert acc. induction room as [|[i j] room IH]; intros acc; simpl.
  - by rewrite app_nil_r.
  - unfold bind at 1 2. rewrite subscript2_resolve.
    destruct (resolve s (i, j)) as [r|]; [|done]. unfold ret at 1.
    rewrite IH. destruct (resolve_all s room) as [rs|]; [|done].
    by rewrite <- app_assoc.
Qed.

Lemma found_loop sc idx found it s :
  Forall (λ r, is_Some (lookup_var s r)) sc →
  foldM (fun st p =>
           let '(found, it) := st in
           let '(i, var) := p in
           a <- var_is_assigned var ;;
           if a then
             v <- var_get_assigned_value var ;;
             let found := found ++ [(i, v)] in
             w <- var_get_assigned_value var ;;
             it <- lift (list_remove w it) ;;
             ret (found, it)
           else ret (found, it))
        (enumerate_from idx sc) (found, it) s =
  match remove_all (fixed_of idx (fixed_at s <$> sc)).*2 it with
  | Ok it' => Ok ((found ++ fixed_of idx (fixed_at s <$> sc), it'), s)
  | Raise e => Raise e
  end.
Proof.
  intros Hsc. revert idx found it.
  induction Hsc as [|r sc [v Hv] Hsc IH]; intros idx found it.
  { simpl. by rewrite app_nil_r. }
  change (enumerate_from idx (r :: sc)) with ((idx, r) :: enumerate_from (S idx) sc).
  rewrite foldM_cons. cbv beta iota.
  unfold var_is_assigned at 1.
  rewrite (bind_read_var _ _ _ _ _ Hv).
  rewrite fmap_cons. unfold fixed_at at 1 3. rewrite Hv.
  destruct (is_assigned v).
  - unfold var_get_assigned_value at 1 2.
    rewrite 2!(bind_read_var _ _ _ _ _ Hv), bind_lift. simpl.
    destruct (list_remove (get_assigned_value v) it) as [it1|]; [|done].
    unfold ret at 1. rewrite IH.
    destruct (remove_all _ it1); [|done]. by rewrite <- app_assoc.
  - unfold ret at 1. apply IH.
Qed.

Lemma room_constraint_spec room k s :
  room_constraint room k s =
  match resolve_all s room with
  | None => Raise IndexError
  | Some sc =>
      match remove_all (fixed_cells s sc).*2 (one_to (length room)) with
      | Raise e => Raise e
      | Ok it' =>
          Ok (mkConstraint ("C" ++ str k) sc
                (insert_fixed (fixed_cells s sc) <$> permutations it'), s)
      end
  end.
Proof.
  unfold room_constraint, bind at 1. rewrite scope_loop.
  destruct (resolve_all s room) as [sc|] eqn:Hsc; [|done]. simpl.
  unfold bind, enumerate. rewrite found_loop by (by eapply resolve_all_lookup).
  fold (fixed_cells s sc).
  destruct (remove_all _ _) as [it'|]; [|done]. simpl.
  unfold ret, add_satisfying_tuples, new_constraint. simpl. do 3 f_equal.
  generalize (permutations it'). induction (fixed_cells s sc) as [|p fx IH].
  - intros tups. simpl. by rewrite list_fmap_id.
  - intros tups. simpl. rewrite IH, <- list_fmap_compose. done.
Qed.

Lemma one_to_length k : length (one_to k) = k.
Proof. unfold one_to, range. by rewrite length_fmap, length_seq. Qed.

Lemma one_to_elem k v :
  v ∈ one_to k ↔ ∃ z, v = PInt z ∧ 1 ≤ z ≤ Z.of_nat k.
Proof.
  unfold one_to, range. rewrite list_elem_of_fmap. split.
  - intros (n & -> & Hn). apply elem_of_seq in Hn. eexists. split; [done|]. lia.
  - intros (z & -> & Hz). exists (Z.to_nat (z - 1)). split.
    + f_equal. lia.
    + apply elem_of_seq. lia.
Qed.

Lemma one_to_NoDup k : NoDup (one_to k).
Proof.
  unfold one_to, range. apply NoDup_fmap_2; [|apply NoDup_seq].
  intros n m [= Heq]. lia.
Qed.

Lemma fixed_of_length_le idx ovs : (length (fixed_of idx ovs) ≤ length ovs)%nat.
Proof.
  revert idx. induction ovs as [|[v|] ovs IH]; intros idx; simpl; [lia|..].
  - specialize (IH (S idx)). lia.
  - specialize (IH (S idx)). lia.
Qed.

Lemma insert_fixed_cons p fx t :
  insert_fixed (p :: fx) t = insert_fixed fx (py_insert p.1 p.2 t).
Proof. reflexivity. Qed.

Lemma insert_fixed_perm fx t : insert_fixed fx t ≡ₚ fx.*2 ++ t.
Proof.
  revert t. induction fx as [|p fx IH]; intros t; [done|].
  rewrite insert_fixed_cons, IH, py_insert_perm. simpl.
  by rewrite Permutation_middle.
Qed.

#[global] Instance insert_fixed_inj fx : Inj (=) (=) (insert_fixed fx).
Proof.
  induction fx as [|p fx IH]; intros t1 t2 Heq; [done|].
  rewrite !insert_fixed_cons in Heq. apply IH in Heq.
  by apply py_insert_inj in Heq.
Qed.

(** Putting the fixed values back, one [insert] per fixed position in
    increasing order, brings every fixed value to its scope position. *)
Lemma insert_fixed_lookup ovs idx t :
  (idx + length ovs ≤ length t + length (fixed_of idx ovs))%nat →
  (∀ q, (q < idx)%nat → insert_fixed (fixed_of idx ovs) t !! q = t !! q) ∧
  (∀ p v, ovs !! p = Some (Some v) →
          insert_fixed (fixed_of idx ovs) t !! (idx + p)%nat = Some v).
Proof.
  revert idx t.
  induction ovs as [|[w|] ovs IH]; intros idx t Hlen;
    simpl fixed_of in *; simpl length in *.
  - split; [done|]. by intros p v ?.
  - pose proof (fixed_of_length_le (S idx) ovs) as Hle.
    rewrite insert_fixed_cons. simpl.
    destruct (IH (S idx) (py_insert idx w t)) as [IH1 IH2].
    { rewrite py_insert_length. lia. }
    split.
    + intros q Hq. rewrite IH1 by lia. apply py_insert_lookup_before; lia.
    + intros [|p] v Hp; simpl in Hp.
      * injection Hp as ->. rewrite Nat.add_0_r, IH1 by lia.
        apply py_insert_lookup_at. lia.
      * replace (idx + S p)%nat with (S idx + p)%nat by lia. by apply IH2.
  - destruct (IH (S idx) t) as [IH1 IH2]; [lia|]. split.
    + intros q Hq. apply IH1. lia.
    + intros [|p] v Hp; simpl in Hp; [done|].
      replace (idx + S p)%nat with (S idx + p)%nat by lia. by apply IH2.
Qed.

(** C1: in a room of size [k] whose [f] assigned variables hold distinct
    values of [1..k], [room_constraint] builds a table of exactly
    [(k-f)!] distinct tuples; each is a permutation of [1..k] and carries,
    at every fixed scope position, the value fixed there. With no assigned
    variable the table is the set of all permutations of [1..k]. *)
Theorem room_constraint_table s room k sc :
  resolve_all s room = Some sc →
  NoDup (fixed_cells s sc).*2 →
  (∀ v, v ∈ (fixed_cells s sc).*2 → ∃ z, v = PInt z ∧ 1 ≤ z ≤ Z.of_nat (length room)) →
  ∃ c,
    room_constraint room k s = Ok (c, s) ∧
    scope c = sc ∧
    length (sat_tuples c) = fact (length room - length (fixed_cells s sc)) ∧
    NoDup (sat_tuples c) ∧
    (∀ t, t ∈ sat_tuples c →
       t ≡ₚ one_to (length room) ∧
       ∀ p r v, sc !! p = Some r → fixed_at s r = Some v → t !! p = Some v) ∧
    (fixed_cells s sc = [] →
       ∀ t, t ∈ sat_tuples c ↔ t ≡ₚ one_to (length room)).
Proof.
  intros Hsc Hnd Hrange. rewrite room_constraint_spec, Hsc.
  destruct (remove_all_succeeds (fixed_cells s sc).*2 (one_to (length room)))
    as [it' Hit']; [done|by intros v ?%Hrange%one_to_elem|].
  rewrite Hit'. eexists. split; [done|]. simpl.
  pose proof (remove_all_Ok _ _ _ Hit') as Hperm.
  assert (Hlen : (length room = length (fixed_cells s sc) + length it')%nat).
  { apply Permutation_length in Hperm.
    by rewrite one_to_length, length_app, length_fmap in Hperm. }
  assert (Hnd' : NoDup it').
  { pose proof (one_to_NoDup (length room)) as H1. rewrite Hperm in H1.
    by apply NoDup_app in H1 as (_ & _ & ?). }
  split_and!.
  - done.
  - rewrite length_fmap, permutations_length. f_equal. lia.
  - apply NoDup_fmap_2; [apply _|]. by apply permutations_NoDup.
  - intros t (t0 & -> & Ht0%permutations_elem)%list_elem_of_fmap. split.
    + by rewrite insert_fixed_perm, Ht0, <- Hperm.
    + intros p r v Hp Hv. unfold fixed_cells.
      destruct (insert_fixed_lookup (fixed_at s <$> sc) 0 t0) as [_ Hlook].
      * fold (fixed_cells s sc). rewrite length_fmap.
        rewrite (resolve_all_length _ _ _ Hsc).
        apply Permutation_length in Ht0. lia.
      * apply (Hlook p v). by rewrite list_lookup_fmap, Hp; simpl; rewrite Hv.
  - intros Hnone t. rewrite Hnone in *. simpl in *. injection Hit' as <-.
    rewrite list_elem_of_fmap. split.
    + by intros (t0 & -> & Ht0%permutations_elem).
    + intros Ht. exists t. split; [done|]. by apply permutations_elem.
Qed.

(** ** The tables of [space_constraint] *)

Section list_remove_fmap.
Context {A B : Type} `{EqDecision A, EqDecision B}.
Context (f : A → B) `{!Inj (=) (=) f}.

Lemma filter_all (P : A → Prop) `{∀ x, Decision (P x)} (l : list A) :
  Forall P l → filter P l = l.
Proof.
  induction 1 as [|x l Hx Hl IH]; [done|].
  by rewrite filter_cons_True, IH.
Qed.

Lemma list_remove_fmap_NoDup x (l : list A) :
  NoDup l → x ∈ l →
  list_remove (f x) (f <$> l) = Ok (f <$> filter (λ y, y ≠ x) l).
Proof.
  induction l as [|y l IH]; intros Hnd Hx; [by apply elem_of_nil in Hx|].
  apply NoDup_cons in Hnd as [Hy Hnd]. rewrite fmap_cons. simpl.
  destruct (decide (f y = f x)) as [Heq|Hne].
  - apply (inj f) in Heq as ->. rewrite filter_cons_False by (by intros ?).
    rewrite filter_all; [done|]. apply Forall_forall. by intros z Hz ->.
  - apply elem_of_cons in Hx as [->|Hx]; [done|].
    rewrite IH by done. rewrite filter_cons_True by congruence. done.
Qed.
End list_remove_fmap.

#[global] Instance pair_tuple_inj : Inj (=) (=) pair_tuple.
Proof. intros [a b] [c d] [= H1 H2]. f_equal; lia. Qed.

Lemma product2_elem {A} (l : list A) a b : (a, b) ∈ product2 l ↔ a ∈ l ∧ b ∈ l.
Proof.
  unfold product2. rewrite list_elem_of_bind. split.
  - intros (x & (y & [= -> ->] & Hy)%list_elem_of_fmap & Hx). done.
  - intros [Ha Hb]. exists a. split; [|done].
    by apply (list_elem_of_fmap_2 (λ y, (a, y))).
Qed.

Lemma product2_NoDup {A} (l : list A) : NoDup l → NoDup (product2 l).
Proof.
  intros Hl. unfold product2. apply NoDup_bind; [| |done].
  - intros x1 x2 [a b'] _ _ (y1 & [= -> ->] & _)%list_elem_of_fmap
      (y2 & [= -> _] & _)%list_elem_of_fmap. done.
  - intros x _. apply NoDup_fmap_2; [|done]. by intros y1 y2 [= ->].
Qed.

Section tables.
Context (R : nat).

Local Abbreviation pairs := (product2 (range2 1 (R + 1))).

Local Abbreviation remove_diag n :=
  (fun (tables : result (list (list (list pyval)))) (t : nat * nat) =>
     match tables with
     | Ok tabs =>
         match py_index tabs (Z.of_nat n) with
         | Ok tab =>
             match list_remove (pair_tuple t) tab with
             | Ok tab' => Ok (<[n%nat := tab']> tabs)
             | Raise e => Raise e
             end
         | Raise e => Raise e
         end
     | Raise e => Raise e
     end).

Lemma pairs_elem a b :
  (a, b) ∈ pairs ↔ (1 ≤ a ≤ R)%nat ∧ (1 ≤ b ≤ R)%nat.
Proof. unfold range2. rewrite product2_elem, !elem_of_seq. lia. Qed.

Lemma pairs_NoDup : NoDup pairs.
Proof. apply product2_NoDup, NoDup_seq. Qed.

(** The inner loop: the removals for the distance [n+1]. *)
Lemma remove_diag_loop n m j tabs :
  (j + m = R + 1)%nat → (n + 1 ≤ j)%nat →
  tabs !! n = Some (pair_tuple <$> filter (keeps (n + 1) j) pairs) →
  foldl (remove_diag n) (Ok tabs) (zip (seq j m) (seq j m)) =
  Ok (<[n := dist_table R (n + 1)]> tabs).
Proof.
  revert j tabs. induction m as [|m IH]; intros j tabs Hjm Hnj Htab.
  - simpl. replace j with (R + 1)%nat in Htab by lia.
    by rewrite list_insert_id.
  - simpl. rewrite (py_index_of_nat _ _ _ Htab).
    rewrite (list_remove_fmap_NoDup pair_tuple).
    + rewrite (IH (S j)); [|lia|lia|].
      * by rewrite list_insert_insert_eq.
      * rewrite list_lookup_insert_eq by (by eapply lookup_lt_Some).
        do 2 f_equal. rewrite list_filter_filter. apply list_filter_iff.
        intros [a b]. unfold keeps. simpl. split.
        -- intros [Hne Hk] [-> Hd]. destruct (decide (b = j)) as [->|]; [done|].
           apply Hk. split; [done|lia].
        -- intros Hk. split.
           ++ intros [= -> ->]. apply Hk. split; [done|lia].
           ++ intros [-> Hd]. apply Hk. split; [done|lia].
    + apply NoDup_filter, pairs_NoDup.
    + apply list_elem_of_filter. split.
      * unfold keeps. simpl. lia.
      * apply pairs_elem. lia.
Qed.

Lemma tables_upto_lookup j n :
  (n < R)%nat →
  tables_upto R j !! n =
  Some (if decide (n < j)%nat then dist_table R (n + 1) else pair_tuple <$> pairs).
Proof.
  intros Hn. unfold tables_upto, range.
  by rewrite list_lookup_fmap, lookup_seq_lt.
Qed.

Lemma remove_diag_outer j :
  (j ≤ R)%nat →
  foldl (fun tables n =>
           foldl (remove_diag n) tables
                 (zip (range2 (n + 1) (R + 1)) (range2 (n + 1) (R + 1))))
        (Ok (tables_upto R 0)) (seq 0 j) =
  Ok (tables_upto R j).
Proof.
  induction j as [|j IH]; intros Hj; [done|].
  rewrite seq_S, foldl_app, IH by lia. simpl. unfold range2.
  rewrite (remove_diag_loop j _ (j + 1)); [|lia|lia|].
  - f_equal. apply list_eq. intros n.
    destruct (decide (n < R)%nat) as [Hn|Hn].
    + rewrite list_lookup_insert, !tables_upto_lookup by done.
      unfold tables_upto, range. rewrite length_fmap, length_seq.
      repeat case_decide; try done; try lia. by destruct_and!; subst.
    + rewrite !lookup_ge_None_2; [done|..];
        rewrite ?length_insert; unfold tables_upto, range;
        rewrite length_fmap, length_seq; lia.
  - rewrite tables_upto_lookup by lia. rewrite decide_False by lia.
    do 2 f_equal. symmetry. apply filter_all, Forall_forall.
    intros p _. unfold keeps. lia.
Qed.

Lemma n_dist_tuples_spec :
  n_dist_tuples R = Ok ((fun n => dist_table R (n + 1)) <$> range R).
Proof.
  unfold n_dist_tuples.
  assert ((fun _ : nat => pair_tuple <$> pairs) <$> range R = tables_upto R 0) as ->.
  { unfold tables_upto. apply list_fmap_ext. intros _ n _.
    rewrite decide_False; [done|lia]. }
  unfold range at 1. rewrite remove_diag_outer by done. f_equal.
  unfold tables_upto. apply list_fmap_ext. intros i n Hn.
  unfold range in Hn. apply lookup_seq in Hn as [-> Hn]. by rewrite decide_True.
Qed.

(** What is in the table [T[d]]. *)
Lemma dist_table_elem d t :
  t ∈ dist_table R d ↔
  ∃ v1 v2 : Z, t = [PInt v1; PInt v2] ∧ 1 ≤ v1 ≤ Z.of_nat R ∧ 1 ≤ v2 ≤ Z.of_nat R ∧
               ¬ (v1 = v2 ∧ Z.of_nat d ≤ v1).
Proof.
  unfold dist_table. rewrite list_elem_of_fmap. split.
  - intros ([a b] & -> & [Hk Hab%pairs_elem]%list_elem_of_filter).
    exists (Z.of_nat a), (Z.of_nat b). unfold keeps in Hk. simpl in Hk.
    split; [done|]. lia.
  - intros (v1 & v2 & -> & H1 & H2 & Hk).
    exists (Z.to_nat v1, Z.to_nat v2). split.
    + unfold pair_tuple. simpl. by rewrite !Z2Nat.id by lia.
    + apply list_elem_of_filter. split.
      * unfold keeps. simpl. lia.
      * apply pairs_elem. lia.
Qed.

Lemma dist_table_NoDup d : NoDup (dist_table R d).
Proof.
  unfold dist_table. apply NoDup_fmap_2; [apply _|].
  apply NoDup_filter, pairs_NoDup.
Qed.
End tables.

(** ** The sweeps of [space_constraint] *)

(** A loop that only appends to its accumulator collects what each round
    appends. *)
Lemma foldM_collect {A C} (body : list C → A → M (list C)) (g : A → list C) l acc s :
  (∀ x acc, x ∈ l → body acc x s = Ok (acc ++ g x, s)) →
  foldM body l acc s = Ok (acc ++ (l ≫= g), s).
Proof.
  revert acc. induction l as [|x l IH]; intros acc Hbody.
  - simpl. by rewrite app_nil_r.
  - rewrite foldM_cons, Hbody by (by left). rewrite IH.
    + by rewrite bind_cons, app_assoc.
    + intros y acc' Hy. apply Hbody. by right.
Qed.

Lemma bind_range_unique {C} (g : nat → list C) (z : Z) R :
  (range R ≫= (fun n => if decide (z = Z.of_nat n + 1) then g n else [])) =
  if decide (1 ≤ z ≤ Z.of_nat R) then g (Z.to_nat (z - 1)) else [].
Proof.
  unfold range. induction R as [|R IH].
  - simpl. rewrite decide_False by lia. done.
  - rewrite seq_S, bind_app, IH, bind_singleton. simpl "+"%nat.
    destruct (decide (z = Z.of_nat R + 1)) as [->|Hz].
    + rewrite decide_False by lia. rewrite decide_True by lia.
      simpl. f_equal. lia.
    + rewrite !app_nil_r. apply decide_ext. lia.
Qed.

Lemma gap_spec a b :
  Z.of_nat (gap a b) = Z.abs (Z.of_nat a - Z.of_nat b).
Proof. unfold gap. lia. Qed.

Section sweep.
Context (s : var_array) (Nh Mw R lines len : nat).
Context (at_ : nat → nat → Z * Z) (cell_at : nat → nat → ref).
Hypothesis Hrect : rect Nh Mw s.
Hypothesis Hat : ∀ i a, (i < lines)%nat → (a < len)%nat →
                        cell_ref Nh Mw (at_ i a) = Some (cell_at i a).

Local Abbreviation tables := ((fun n => dist_table R (n + 1)) <$> range R).

Lemma subscript2_at i a :
  (i < lines)%nat → (a < len)%nat →
  subscript2 (at_ i a).1 (at_ i a).2 s = Ok (cell_at i a, s).
Proof.
  intros Hi Ha. rewrite subscript2_resolve.
  rewrite <- surjective_pairing, (resolve_rect Nh Mw), Hat; done.
Qed.

Lemma make_constraint_spec p q :
  is_Some (lookup_var s p) → is_Some (lookup_var s q) →
  make_constraint p q s =
  Ok (new_constraint ("C-" ++ name_of s p ++ ":" ++ name_of s q) [p; q], s).
Proof.
  intros [v Hv] [w Hw]. unfold make_constraint, var_name, name_of.
  rewrite (bind_read_var _ _ _ _ _ Hv), (bind_read_var _ _ _ _ _ Hw).
  by rewrite Hv, Hw.
Qed.

Lemma cell_at_lookup i a :
  (i < lines)%nat → (a < len)%nat → is_Some (lookup_var s (cell_at i a)).
Proof.
  intros Hi Ha. apply (lookup_var_rect Nh Mw); [done|].
  by eapply cell_ref_bounds, Hat.
Qed.

Lemma sweep_spec acc :
  sweep tables R lines len at_ acc s =
  Ok (acc ++ sweep_list s R lines len cell_at, s).
Proof.
  unfold sweep, sweep_list.
  apply foldM_collect. intros i acc1 Hi. apply elem_of_seq in Hi.
  apply foldM_collect. intros [a b] acc2 Hab.
  apply product2_elem in Hab as [Ha%elem_of_seq Hb%elem_of_seq].
  cbv beta iota.
  rewrite (foldM_collect _
    (fun n => if decide (Z.abs (Z.of_nat a - Z.of_nat b) = Z.of_nat n + 1)
              then [pair_constraint s R (cell_at i a) (cell_at i b) (n + 1)]
              else [])).
  - rewrite bind_range_unique. do 2 f_equal. simpl.
    rewrite <- gap_spec.
    destruct (decide (1 ≤ Z.of_nat (gap a b) ≤ Z.of_nat R)) as [Hg|Hg].
    + rewrite decide_True by lia. unfold pair_constraint. repeat f_equal. lia.
    + rewrite decide_False by lia. done.
  - intros n acc3 Hn. apply elem_of_seq in Hn.
    destruct (decide _) as [Hd|Hd]; [|simpl; unfold ret; by rewrite app_nil_r].
    unfold bind. rewrite !subscript2_at by lia.
    rewrite make_constraint_spec by (apply cell_at_lookup; lia).
    unfold lift. erewrite py_index_of_nat; [done|].
    unfold range. by rewrite list_lookup_fmap, lookup_seq_lt by lia.
Qed.
End sweep.

Lemma space_constraint_spec s R Mw Nh :
  rect Nh Mw s →
  space_constraint R Mw Nh s =
  Ok (sweep_list s R Nh Mw (fun i a => (i, a)) ++
      sweep_list s R Mw Nh (fun i a => (a, i)), s).
Proof.
  intros Hrect. rewrite space_constraint_unfold.
  rewrite bind_lift, n_dist_tuples_spec. unfold bind.
  rewrite (sweep_spec s Nh Mw R Nh Mw _ (fun i a => (i, a))); [|done|].
  - rewrite (sweep_spec s Nh Mw R Mw Nh _ (fun i a => (a, i))); [done|done|].
    intros i a Hi Ha. by apply cell_ref_of_nat.
  - intros i a Hi Ha. by apply cell_ref_of_nat.
Qed.

(** *** Counting the constraints of a pair *)

Section count_bind.
Context {A C : Type} (P : C → Prop) `{∀ c, Decision (P c)}.

Lemma count_bind_zero (g : A → list C) l :
  (∀ x, x ∈ l → Forall (λ c, ¬ P c) (g x)) →
  length (filter P (l ≫= g)) = 0%nat.
Proof.
  intros Hg. apply length_filter_0, Forall_bind, Forall_forall.
  intros x Hx. by apply Hg.
Qed.

Lemma count_bind_unique (g : A → list C) l x0 :
  NoDup l → x0 ∈ l →
  (∀ x, x ∈ l → x ≠ x0 → Forall (λ c, ¬ P c) (g x)) →
  length (filter P (l ≫= g)) = length (filter P (g x0)).
Proof.
  intros Hnd (l1 & l2 & ->)%list_elem_of_split Hother.
  apply NoDup_app in Hnd as (_ & Hl1 & [Hx0 _]%NoDup_cons).
  rewrite bind_app, bind_cons, !filter_app, !length_app.
  rewrite !count_bind_zero; [lia|..].
  - intros x Hx. apply Hother; [apply elem_of_app; right; by right|].
    by intros ->.
  - intros x Hx. apply Hother; [apply elem_of_app; by left|]. intros ->.
    by apply (Hl1 x0); [|left].
Qed.
End count_bind.

Section sweep_list.
Context (s : var_array) (R lines len : nat) (cell_at : nat → nat → ref).
Hypothesis Hinj : ∀ i a i' a', cell_at i a = cell_at i' a' → i = i' ∧ a = a'.

Lemma sweep_list_elem c :
  c ∈ sweep_list s R lines len cell_at ↔
  ∃ i a b, (i < lines)%nat ∧ (a < len)%nat ∧ (b < len)%nat ∧
           (1 ≤ gap a b ≤ R)%nat ∧
           c = pair_constraint s R (cell_at i a) (cell_at i b) (gap a b).
Proof.
  unfold sweep_list, range. rewrite list_elem_of_bind. split.
  - intros (i & (ab & Hc & Hab)%list_elem_of_bind & Hi%elem_of_seq).
    destruct ab as [a b].
    apply product2_elem in Hab as [Ha%elem_of_seq Hb%elem_of_seq].
    simpl in Hc. destruct (decide _) as [Hg|]; [|by apply elem_of_nil in Hc].
    apply list_elem_of_singleton in Hc. exists i, a, b. split_and!; [lia..|done].
  - intros (i & a & b & Hi & Ha & Hb & Hg & ->). exists i.
    split; [|apply elem_of_seq; lia]. apply list_elem_of_bind. exists (a, b).
    split; [|apply product2_elem; rewrite !elem_of_seq; lia].
    simpl. rewrite decide_True by done. by left.
Qed.

Lemma sweep_list_count_0 p q :
  (∀ i a b, (i < lines)%nat → (a < len)%nat → (b < len)%nat →
            (1 ≤ gap a b ≤ R)%nat → ¬ (cell_at i a = p ∧ cell_at i b = q)) →
  length (filter (λ c, scope c = [p; q]) (sweep_list s R lines len cell_at)) = 0%nat.
Proof.
  intros Hno. apply length_filter_0, Forall_forall.
  intros c (i & a & b & Hi & Ha & Hb & Hg & ->)%sweep_list_elem [= Hp Hq].
  by apply (Hno i a b).
Qed.

Lemma sweep_list_count_1 i a b :
  (i < lines)%nat → (a < len)%nat → (b < len)%nat → (1 ≤ gap a b ≤ R)%nat →
  length (filter (λ c, scope c = [cell_at i a; cell_at i b])
                 (sweep_list s R lines len cell_at)) = 1%nat.
Proof.
  intros Hi Ha Hb Hg. unfold sweep_list, range.
  rewrite (count_bind_unique _ _ _ i); [|apply NoDup_seq|apply elem_of_seq; lia|].
  - rewrite (count_bind_unique _ _ _ (a, b));
      [|apply product2_NoDup, NoDup_seq
       |apply product2_elem; rewrite !elem_of_seq; lia|].
    + simpl. rewrite decide_True by done. by rewrite filter_cons_True.
    + intros [a' b'] _ Hne. simpl. destruct (decide _); [|done].
      apply Forall_singleton. intros [= [_ ->]%Hinj [_ ->]%Hinj]. done.
  - intros i' _ Hne. apply Forall_bind, Forall_forall. intros [a' b'] _.
    simpl. destruct (decide _); [|done].
    apply Forall_singleton. intros [= [-> _]%Hinj _]. done.
Qed.
End sweep_list.

Lemma gap_diag a : gap a a = 0%nat.
Proof. unfold gap. lia. Qed.

(** Every constraint of the two sweeps is the constraint of an ordered
    pair of grid cells of one row or one column, at a distance within
    [1..R]. *)
Lemma space_constraint_elem s R Mw Nh c :
  c ∈ sweep_list s R Nh Mw (fun i a => (i, a)) ++
      sweep_list s R Mw Nh (fun i a => (a, i)) →
  ∃ p q d, in_grid Nh Mw p ∧ in_grid Nh Mw q ∧
           axis_distance p q = Some d ∧ (1 ≤ d ≤ R)%nat ∧
           c = pair_constraint s R p q d.
Proof.
  intros [Hc|Hc]%elem_of_app;
    apply sweep_list_elem in Hc as (i & a & b & Hi & Ha & Hb & Hg & ->).
  - exists (i, a), (i, b), (gap a b). unfold in_grid, axis_distance. simpl.
    rewrite decide_True by done. done.
  - exists (a, i), (b, i), (gap a b). unfold in_grid, axis_distance. simpl.
    destruct (decide (a = b)) as [->|Hab]; [rewrite gap_diag in Hg; lia|].
    rewrite decide_True by done. done.
Qed.

(** C5: over a grid of [Nh] rows of [Mw] variables, [space_constraint]
    returns a list that holds, for every ordered pair [(p, q)] of grid
    cells, exactly one constraint with scope [[p; q]] when [p] and [q]
    share a row or a column at a distance within [1..R], and none
    otherwise; that constraint's table is [T[d]] for their distance [d],
    and the list holds nothing else. *)
Theorem space_constraint_pairs s R Mw Nh :
  rect Nh Mw s →
  ∃ cs,
    space_constraint R Mw Nh s = Ok (cs, s) ∧
    (∀ c, c ∈ cs →
       ∃ p q d, in_grid Nh Mw p ∧ in_grid Nh Mw q ∧
                axis_distance p q = Some d ∧ (1 ≤ d ≤ R)%nat ∧
                c = pair_constraint s R p q d) ∧
    (∀ p q, in_grid Nh Mw p → in_grid Nh Mw q →
       length (filter (λ c, scope c = [p; q]) cs) =
       match axis_distance p q with
       | Some d => if decide (1 ≤ d ≤ R)%nat then 1%nat else 0%nat
       | None => 0%nat
       end).
Proof.
  intros Hrect. rewrite space_constraint_spec by done.
  eexists. split; [done|]. split.
  - apply space_constraint_elem.
  - intros [pr pc] [qr qc] [Hpr Hpc] [Hqr Hqc]. simpl in *.
    rewrite filter_app, length_app. unfold axis_distance. simpl.
    assert (Hinj1 : ∀ i a i' a' : nat, (i, a) = (i', a') → i = i' ∧ a = a')
      by (by intros ???? [= -> ->]).
    assert (Hinj2 : ∀ i a i' a' : nat, (a, i) = (a', i') → i = i' ∧ a = a')
      by (by intros ???? [= -> ->]).
    destruct (decide (pr = qr)) as [->|Hrow].
    + rewrite (sweep_list_count_0 _ _ _ _ (fun i a => (a, i))).
      * destruct (decide (1 ≤ gap pc qc ≤ R)%nat) as [Hg|Hg].
        -- by rewrite (sweep_list_count_1 s R Nh Mw (fun i a => (i, a)) Hinj1 qr pc qc).
        -- rewrite sweep_list_count_0; [done|].
           intros i a b _ _ _ Hg' [[= -> ->] [= ->]]. done.
      * intros i a b _ _ _ Hg' [[= -> ->] [= -> _]]. rewrite gap_diag in Hg'. lia.
    + rewrite sweep_list_count_0.
      * destruct (decide (pc = qc)) as [->|Hcol]; [|by rewrite sweep_list_count_0;
          [|intros i a b _ _ _ _ [[= -> ->] [= _ ->]]]].
        destruct (decide (1 ≤ gap pr qr ≤ R)%nat) as [Hg|Hg].
        -- by rewrite (sweep_list_count_1 s R Mw Nh (fun i a => (a, i)) Hinj2 qc pr qr).
        -- rewrite sweep_list_count_0; [done|].
           intros i a b _ _ _ Hg' [[= -> ->] [= ->]]. done.
      * intros i a b _ _ _ _ [[= -> ->] [= ->]]. done.
Qed.

(** C2: the constraint that [space_constraint] builds for two cells of a
    row or of a column at distance [d] admits exactly the pairs of
    [{1..R} x {1..R}] other than the equal pairs [(v, v)] with [v >= d]. *)
Theorem space_constraint_table s R Mw Nh cs s' c p q d :
  rect Nh Mw s →
  space_constraint R Mw Nh s = Ok (cs, s') →
  c ∈ cs → scope c = [p; q] → axis_distance p q = Some d →
  (1 ≤ d ≤ R)%nat ∧
  NoDup (sat_tuples c) ∧
  ∀ t, t ∈ sat_tuples c ↔
       ∃ v1 v2 : Z, t = [PInt v1; PInt v2] ∧
                    1 ≤ v1 ≤ Z.of_nat R ∧ 1 ≤ v2 ≤ Z.of_nat R ∧
                    ¬ (v1 = v2 ∧ Z.of_nat d ≤ v1).
Proof.
  intros Hrect Hsp Hc Hscope Hd.
  rewrite space_constraint_spec in Hsp by done. injection Hsp as <- _.
  destruct (space_constraint_elem s R Mw Nh c Hc)
    as (p' & q' & d' & _ & _ & Hd' & Hrange & ->).
  simpl in Hscope. injection Hscope as -> ->.
  assert (d' = d) as -> by congruence.
  split; [done|]. split; [apply dist_table_NoDup|].
  intros t. apply dist_table_elem.
Qed.

(** ** Clues that [room_constraint] cannot remove from its pool *)

(** [room_constraint] stops with [ValueError] as soon as the values of the
    assigned variables of the room are not distinct values of [1..k]. *)
Lemma room_constraint_raises s room k sc :
  resolve_all s room = Some sc →
  ¬ (NoDup (fixed_cells s sc).*2 ∧
     ∀ v, v ∈ (fixed_cells s sc).*2 → v ∈ one_to (length room)) →
  room_constraint room k s = Raise ValueError.
Proof.
  intros Hsc Hbad. rewrite room_constraint_spec, Hsc.
  by rewrite remove_all_fails; [|apply one_to_NoDup|].
Qed.

(** C3, at the input [board = [[3]]], [rooms = [[(0, 0)]]]:
    [make_variable] accepts the clue [3] in a room of size [1] and leaves
    the variable assigned [3] with domain [[3]], but the construction of
    the model then stops in [room_constraint] with [ValueError] and returns
    no model. *)
Theorem out_of_range_clue_raises :
  make_variable [[PInt 3]] [[(0, 0)]] 1 1 [] =
    Ok (tt, [[mkVariable "V0,0" [PInt 3] (Some (PInt 3))]]) ∧
  room_constraint [(0, 0)] 1 [[mkVariable "V0,0" [PInt 3] (Some (PInt 3))]] =
    Raise ValueError ∧
  run_model [[PInt 3]] [[(0, 0)]] = Raise ValueError.
Proof. by vm_compute. Qed.

(** C4, at a room of two cells both holding the clue [1]:
    [room_constraint] does not complete with an empty table, it stops with
    [ValueError] at the second [remove]. *)
Theorem conflicting_clues_raise :
  make_variable [[PInt 1; PStr "|"; PInt 1]] [[(0, 0); (0, 1)]] 2 1 [] =
    Ok (tt, [[mkVariable "V0,0" [PInt 1] (Some (PInt 1));
              mkVariable "V0,1" [PInt 1] (Some (PInt 1))]]) ∧
  room_constraint [(0, 0); (0, 1)] 1
    [[mkVariable "V0,0" [PInt 1] (Some (PInt 1));
      mkVariable "V0,1" [PInt 1] (Some (PInt 1))]] = Raise ValueError.
Proof. by vm_compute. Qed.

(** ** The model as a whole *)

(** What follows [make_variable] in [ripple_effect_csp_model] only reads
    the variables. *)
Lemma read_only_assembly rooms Mw Nh :
  read_only
    (room_cons <- mapM (fun p => room_constraint p.2 (p.1 + 1)) (enumerate rooms) ;;
     max_rsize <- lift (py_max (length <$> rooms)) ;;
     space_cons <- space_constraint max_rsize Mw Nh ;;
     let csp := new_csp "Ripple_Effect" in
     grid <- get_store ;;
     let csp := foldl (fun csp row => foldl (fun csp var => add_var var csp) csp row)
                      csp (grid_refs grid) in
     let csp := foldl (fun csp room => add_room room csp) csp rooms in
     let csp := foldl (fun csp c => add_constraint c csp) csp room_cons in
     let csp := foldl (fun csp c => add_constraint c csp) csp space_cons in
     ret csp).
Proof.
  apply read_only_bind.
  { apply read_only_mapM. intros p. apply read_only_room_constraint. }
  intros room_cons. apply read_only_bind; [apply read_only_lift|].
  intros R. apply read_only_bind; [apply read_only_space_constraint|].
  intros space_cons. apply read_only_bind; [apply read_only_get_store|].
  intros grid. apply read_only_ret.
Qed.

(** C8: [room_constraint] and [space_constraint] only read the variables,
    and the grid that [ripple_effect_csp_model] returns is, variable for
    variable, the grid that [make_variable] left. *)
Theorem generators_keep_variables b rooms s0 csp va :
  ripple_effect_csp_model b rooms s0 = Ok (csp, va) →
  make_variable b rooms (board_width b) (board_height b) s0 = Ok (tt, va) ∧
  (∀ room k, read_only (room_constraint room k)) ∧
  (∀ R Mw Nh, read_only (space_constraint R Mw Nh)).
Proof.
  intros Hrun. split; [|split].
  - rewrite model_unfold in Hrun. destruct (b !! 0%nat); [|done]. simpl in Hrun.
    destruct (make_variable _ _ _ _ s0) as [[[] s1]|]; [|done].
    by apply read_only_assembly in Hrun as ->.
  - apply read_only_room_constraint.
  - apply read_only_space_constraint.
Qed.

(** ** The theorems at sample inputs *)

Lemma room_constraint_table_witness :
  ∃ c,
    room_constraint [(0, 0); (0, 1); (0, 2)] 1 row3_grid = Ok (c, row3_grid) ∧
    scope c = [(0, 0); (0, 1); (0, 2)]%nat ∧
    length (sat_tuples c) =
      fact (3 - length (fixed_cells row3_grid [(0, 0); (0, 1); (0, 2)]%nat)) ∧
    NoDup (sat_tuples c) ∧
    (∀ t, t ∈ sat_tuples c →
       t ≡ₚ one_to 3 ∧
       ∀ p r v, [(0, 0); (0, 1); (0, 2)]%nat !! p = Some r →
                fixed_at row3_grid r = Some v → t !! p = Some v) ∧
    (fixed_cells row3_grid [(0, 0); (0, 1); (0, 2)]%nat = [] →
       ∀ t, t ∈ sat_tuples c ↔ t ≡ₚ one_to 3).
Proof.
  apply (room_constraint_table row3_grid [(0, 0); (0, 1); (0, 2)] 1
           [(0, 0); (0, 1); (0, 2)]%nat).
  - vm_compute. reflexivity.
  - vm_compute. apply NoDup_singleton.
  - intros v Hv. vm_compute in Hv. apply list_elem_of_singleton in Hv as ->.
    exists 2. split; [reflexivity|]. simpl. lia.
Defined.

Lemma space_constraint_table_witness :
  (1 ≤ 1 ≤ 3)%nat ∧
  NoDup (sat_tuples (pair_constraint row3_grid 3 (0, 0)%nat (0, 1)%nat 1)) ∧
  ∀ t, t ∈ sat_tuples (pair_constraint row3_grid 3 (0, 0)%nat (0, 1)%nat 1) ↔
       ∃ v1 v2 : Z, t = [PInt v1; PInt v2] ∧
                    1 ≤ v1 ≤ Z.of_nat 3 ∧ 1 ≤ v2 ≤ Z.of_nat 3 ∧
                    ¬ (v1 = v2 ∧ Z.of_nat 1 ≤ v1).
Proof.
  eapply (space_constraint_table row3_grid 3 3 1 _ _
            (pair_constraint row3_grid 3 (0, 0)%nat (0, 1)%nat 1)
            (0, 0)%nat (0, 1)%nat 1%nat).
  - split; [reflexivity|]. repeat constructor.
  - vm_compute. reflexivity.
  - vm_compute. repeat constructor.
  - reflexivity.
  - reflexivity.
Defined.

Lemma space_constraint_pairs_witness :
  ∃ cs,
    space_constraint 3 3 1 row3_grid = Ok (cs, row3_grid) ∧
    (∀ c, c ∈ cs →
       ∃ p q d, in_grid 1 3 p ∧ in_grid 1 3 q ∧
                axis_distance p q = Some d ∧ (1 ≤ d ≤ 3)%nat ∧
                c = pair_constraint row3_grid 3 p q d) ∧
    (∀ p q, in_grid 1 3 p → in_grid 1 3 q →
       length (filter (λ c, scope c = [p; q]) cs) =
       match axis_distance p q with
       | Some d => if decide (1 ≤ d ≤ 3)%nat then 1%nat else 0%nat
       | None => 0%nat
       end).
Proof.
  apply (space_constraint_pairs row3_grid 3 3 1).
  split; [reflexivity|]. repeat constructor.
Defined.

Lemma generators_keep_variables_witness :
  make_variable row3_board row3_rooms (board_width row3_board)
    (board_height row3_board) [] = Ok (tt, row3_grid) ∧
  (∀ room k, read_only (room_constraint room k)) ∧
  (∀ R Mw Nh, read_only (space_constraint R Mw Nh)).
Proof.
  eapply (generators_keep_variables row3_board row3_rooms [] _ row3_grid).
  vm_compute. reflexivity.
Defined.

(** ** Well-formed inputs whose rooms need not cover the grid *)

Lemma loop_cells_NoDup b Nh Mw l s u s' :
  rect Nh Mw s →
  NoDup ((λ kc : nat * (Z * Z), cell_ref Nh Mw kc.2) <$> l) →
  for_ l (fun visit => make_variable_body b visit.1 visit.2) s = Ok (u, s') →
  ∀ kc r, kc ∈ l → cell_ref Nh Mw kc.2 = Some r →
    ∃ val, board_at b (kc.2.1 * 2) (kc.2.2 * 2) = Ok val ∧
           lookup_var s' r = touch kc.1 val <$> lookup_var s r.
Proof.
  intros Hrect Hnd Hloop kc r (l1 & l2 & ->)%list_elem_of_split Hr.
  rewrite fmap_app, fmap_cons in Hnd.
  apply NoDup_app in Hnd as (_ & Hl1 & [Hl2 _]%NoDup_cons).
  apply (loop_touched_once b Nh Mw l1 kc l2 r s u s'); try done.
  - apply Forall_forall. intros kc' Hkc' Heq. apply (Hl1 (Some r)).
    + rewrite <- Heq. by apply (list_elem_of_fmap_2 (λ kc, cell_ref Nh Mw kc.2)).
    + rewrite Hr. by left.
  - apply Forall_forall. intros kc' Hkc' Heq. apply Hl2.
    rewrite Hr, <- Heq. by apply (list_elem_of_fmap_2 (λ kc, cell_ref Nh Mw kc.2)).
Qed.

Lemma clue_in_range_clue b k c :
  clue_in_range b k c →
  ∃ z, board_at b (c.1 * 2) (c.2 * 2) = Ok (PInt z) ∧ clue_of b c = PInt z ∧
       0 ≤ z ≤ Z.of_nat k.
Proof.
  unfold clue_in_range, clue_of.
  destruct (board_at b (c.1 * 2) (c.2 * 2)) as [[z| |]|]; try done.
  intros Hz. by exists z.
Qed.

(** On a well-formed input [make_variable] returns a grid in which the
    variables that no room mentions are fresh and the variable of each room
    cell has been visited once. *)
Lemma make_variable_well_formed b rooms s0 :
  well_formed b rooms →
  ∃ va,
    make_variable b rooms (board_width b) (board_height b) s0 = Ok (tt, va) ∧
    rect (board_height b) (board_width b) va ∧
    (∀ r, Forall (λ c, cell_ref (board_height b) (board_width b) c ≠ Some r)
                 (concat rooms) →
          lookup_var va r = lookup_var (fresh_grid (board_width b) (board_height b)) r) ∧
    (∀ room c r, room ∈ rooms → c ∈ room →
       cell_ref (board_height b) (board_width b) c = Some r →
       lookup_var va r =
       Some (touch (length room) (clue_of b c)
               (new_variable ("V" ++ str r.1 ++ "," ++ str r.2)))).
Proof.
  intros (_ & _ & Hcells & Hnd & _).
  set (Nh := board_height b) in *. set (Mw := board_width b) in *.
  rewrite make_variable_unfold, make_variable_loops_flat.
  destruct (loop_succeeds b Nh Mw (tagged_cells rooms) (fresh_grid Mw Nh))
    as [va Hva]; [apply fresh_grid_rect| |].
  { apply Forall_forall. intros kc (room & Hroom & Hc & _)%tagged_cells_elem_inv.
    rewrite Forall_forall in Hcells. specialize (Hcells room Hroom).
    rewrite Forall_forall in Hcells. destruct (Hcells _ Hc) as [Hsome Hclue].
    split; [done|]. apply clue_in_range_clue in Hclue as (z & Hz & _). eauto. }
  exists va. split; [done|]. split; [|split].
  - eapply loop_rect; [apply fresh_grid_rect|done].
  - intros r Hr. eapply loop_untouched; [apply fresh_grid_rect| |done].
    rewrite <- tagged_cells_snd, Forall_fmap in Hr.
    eapply Forall_impl; [exact Hr|]. by intros kc Hkc.
  - intros room c r Hroom Hc Hr.
    assert (Hnd' : NoDup ((λ kc : nat * (Z * Z), cell_ref Nh Mw kc.2)
                            <$> tagged_cells rooms)).
    { rewrite <- tagged_cells_snd, <- list_fmap_compose in Hnd. exact Hnd. }
    destruct (loop_cells_NoDup b Nh Mw _ _ _ _ (fresh_grid_rect Mw Nh) Hnd' Hva
                (length room, c) r (tagged_cells_elem _ _ _ Hroom Hc) Hr)
      as (val & Hval & Hlook).
    rewrite Hlook. destruct (cell_ref_bounds _ _ _ _ Hr) as [Hi Hj].
    destruct r as [i j]. rewrite fresh_grid_lookup by done. simpl.
    unfold clue_of. simpl in Hval. by rewrite Hval.
Qed.

Lemma fixed_of_snd idx ovs : (fixed_of idx ovs).*2 = omap id ovs.
Proof.
  revert idx. induction ovs as [|[v|] ovs IH]; intros idx; simpl; [done|..].
  - by rewrite IH.
  - apply IH.
Qed.

Lemma fixed_at_touch s r k val nm :
  lookup_var s r = Some (touch k val (new_variable nm)) →
  fixed_at s r = if decide (val ≠ PInt 0) then Some val else None.
Proof.
  intros Hv. unfold fixed_at. rewrite Hv. unfold touch.
  by destruct (decide (val ≠ PInt 0)).
Qed.

(** The scope of a room and the values fixed in it, read off the board. *)
Lemma room_scope_fixed b va room :
  rect (board_height b) (board_width b) va →
  (∀ c, c ∈ room → is_Some (cell_ref (board_height b) (board_width b) c)) →
  (∀ c r, c ∈ room → cell_ref (board_height b) (board_width b) c = Some r →
          ∃ k nm, lookup_var va r = Some (touch k (clue_of b c) (new_variable nm))) →
  ∃ sc, resolve_all va room = Some sc ∧
        (fixed_cells va sc).*2 = filter (λ v, v ≠ PInt 0) (clue_of b <$> room).
Proof.
  intros Hrect. unfold fixed_cells. setoid_rewrite fixed_of_snd.
  induction room as [|c room IH]; intros Hsome Hlook.
  - by exists [].
  - destruct IH as (sc & Hsc & Hfix).
    { intros c' Hc'. apply Hsome. by right. }
    { intros c' r' Hc'. apply Hlook. by right. }
    destruct (Hsome c) as [r Hr]; [by left|].
    destruct (Hlook c r) as (k & nm & Hv); [by left|done|].
    exists (r :: sc). split.
    + simpl. by rewrite (resolve_rect _ _ _ _ Hrect), Hr, Hsc.
    + rewrite !fmap_cons, (fixed_at_touch _ _ _ _ _ Hv), filter_cons.
      destruct (decide (clue_of b c ≠ PInt 0)); csimpl; by rewrite Hfix.
Qed.

Lemma room_constraint_well_formed b rooms va room k :
  well_formed b rooms → room ∈ rooms →
  rect (board_height b) (board_width b) va →
  (∀ room c r, room ∈ rooms → c ∈ room →
     cell_ref (board_height b) (board_width b) c = Some r →
     lookup_var va r =
     Some (touch (length room) (clue_of b c)
             (new_variable ("V" ++ str r.1 ++ "," ++ str r.2)))) →
  ∃ c, room_constraint room k va = Ok (c, va).
Proof.
  intros (_ & _ & Hcells & _ & Hclues) Hroom Hrect Hlook.
  rewrite Forall_forall in Hcells. specialize (Hcells room Hroom).
  rewrite Forall_forall in Hcells.
  rewrite Forall_forall in Hclues. specialize (Hclues room Hroom).
  destruct (room_scope_fixed b va room Hrect) as (sc & Hsc & Hfix).
  { intros c Hc. by apply Hcells. }
  { intros c r Hc Hr. rewrite (Hlook room c r) by done. eauto. }
  rewrite room_constraint_spec, Hsc, Hfix.
  destruct (remove_all_succeeds (filter (λ v, v ≠ PInt 0) (clue_of b <$> room))
              (one_to (length room))) as [it' ->]; [done| |by eexists].
  intros v [Hv (c & -> & Hc)%list_elem_of_fmap]%list_elem_of_filter.
  destruct (Hcells c Hc) as [_ (z & _ & Hz & Hrange)%clue_in_range_clue].
  rewrite Hz in *. apply one_to_elem. exists z. split; [done|].
  assert (z ≠ 0) by congruence. lia.
Qed.

Lemma mapM_succeeds {A B} (f : A → M B) l s :
  (∀ x, x ∈ l → ∃ y, f x s = Ok (y, s)) → ∃ ys, mapM f l s = Ok (ys, s).
Proof.
  induction l as [|x l IH]; intros Hf; [by exists []|].
  destruct (Hf x) as [y Hy]; [by left|].
  destruct IH as [ys Hys]; [intros x' ?; apply Hf; by right|].
  exists (y :: ys). simpl. unfold bind. by rewrite Hy, Hys.
Qed.

Lemma enumerate_from_elem {A} (l : list A) start p :
  p ∈ enumerate_from start l → p.2 ∈ l.
Proof.
  revert start. induction l as [|x l IH]; intros start; simpl.
  - by intros ?%elem_of_nil.
  - intros [->|Hp]%elem_of_cons; [by left|]. right. by eapply IH.
Qed.

Lemma foldl_add_var csp row :
  foldl (fun csp var => add_var var csp) csp row =
  mkCSP (csp_name csp) (vars csp ++ row) (csp_rooms csp) (cons csp).
Proof.
  revert csp. induction row as [|r row IH]; intros csp; simpl.
  - rewrite app_nil_r. by destruct csp.
  - rewrite IH. simpl. by rewrite <- app_assoc.
Qed.

Lemma foldl_add_rows csp rows :
  foldl (fun csp row => foldl (fun csp var => add_var var csp) csp row) csp rows =
  mkCSP (csp_name csp) (vars csp ++ concat rows) (csp_rooms csp) (cons csp).
Proof.
  revert csp. induction rows as [|row rows IH]; intros csp; simpl.
  - rewrite app_nil_r. by destruct csp.
  - rewrite IH, foldl_add_var. simpl. by rewrite <- app_assoc.
Qed.

Lemma foldl_add_room csp rooms :
  foldl (fun csp room => add_room room csp) csp rooms =
  mkCSP (csp_name csp) (vars csp) (csp_rooms csp ++ rooms) (cons csp).
Proof.
  revert csp. induction rooms as [|room rooms IH]; intros csp; simpl.
  - rewrite app_nil_r. by destruct csp.
  - rewrite IH. simpl. by rewrite <- app_assoc.
Qed.

Lemma foldl_add_constraint csp l :
  foldl (fun csp c => add_constraint c csp) csp l =
  mkCSP (csp_name csp) (vars csp) (csp_rooms csp) (cons csp ++ l).
Proof.
  revert csp. induction l as [|c l IH]; intros csp; simpl.
  - rewrite app_nil_r. by destruct csp.
  - rewrite IH. simpl. by rewrite <- app_assoc.
Qed.

Lemma elem_of_concat {A} (ls : list (list A)) x :
  x ∈ concat ls ↔ ∃ l, l ∈ ls ∧ x ∈ l.
Proof.
  induction ls as [|l ls IH]; simpl.
  - split; [by intros ?%elem_of_nil|by intros (l & ?%elem_of_nil & _)].
  - rewrite elem_of_app, IH. split.
    + intros [Hx|(l' & Hl' & Hx)]; [exists l; split; [by left|done]|].
      exists l'. split; [by right|done].
    + intros (l' & [->|Hl']%elem_of_cons & Hx); [by left|]. right. by exists l'.
Qed.

Lemma grid_refs_elem s r : is_Some (lookup_var s r) → r ∈ concat (grid_refs s).
Proof.
  unfold lookup_var, grid_refs. intros [v Hv].
  destruct (s !! r.1) as [row|] eqn:Hrow; [|done].
  apply elem_of_concat. exists (imap (fun j _ => (r.1, j)) row). split.
  - apply list_elem_of_lookup. exists r.1. by rewrite list_lookup_imap, Hrow.
  - apply list_elem_of_lookup. exists r.2. rewrite list_lookup_imap, Hv.
    simpl. by destruct r.
Qed.

Lemma gap_sym a b : gap a b = gap b a.
Proof. unfold gap. lia. Qed.

Lemma mapM_lookup {A B} (f : A → M B) l s ys s' :
  (∀ x, read_only (f x)) →
  mapM f l s = Ok (ys, s') →
  s' = s ∧ length ys = length l ∧
  ∀ i x, l !! i = Some x → ∃ y, ys !! i = Some y ∧ f x s = Ok (y, s).
Proof.
  intros Hro. revert ys. induction l as [|x l IH]; intros ys; simpl.
  - intros [= <- <-]. split; [done|]. split; [done|]. by intros i x ?.
  - unfold bind at 1. destruct (f x s) as [[y s1]|] eqn:Hx; [|done].
    apply Hro in Hx as Hs1. subst s1.
    unfold bind. destruct (mapM f l s) as [[ys' s2]|] eqn:Hl; [|done].
    intros [= <- <-]. destruct (IH ys' eq_refl) as (-> & Hlen & Hlook).
    split; [done|]. split; [simpl; by rewrite Hlen|].
    intros [|i] x' Hi; simpl in *.
    + injection Hi as <-. by exists y.
    + by apply Hlook.
Qed.

(** A returned model, phase by phase. *)
Lemma model_Ok_inv b rooms csp va :
  run_model b rooms = Ok (csp, va) →
  ∃ room_cons,
    make_variable b rooms (board_width b) (board_height b) [] = Ok (tt, va) ∧
    rect (board_height b) (board_width b) va ∧
    mapM (fun p => room_constraint p.2 (p.1 + 1)) (enumerate rooms) va
      = Ok (room_cons, va) ∧
    csp = mkCSP "Ripple_Effect" (concat (grid_refs va)) rooms
            (room_cons ++
             sweep_list va (max_room_size rooms) (board_height b) (board_width b)
               (fun i a => (i, a)) ++
             sweep_list va (max_room_size rooms) (board_width b) (board_height b)
               (fun i a => (a, i))).
Proof.
  unfold run_model. rewrite model_unfold.
  destruct (b !! 0%nat); [|done]. simpl.
  destruct (make_variable _ _ _ _ []) as [[[] s1]|] eqn:Hmv; [|done].
  assert (Hrect : rect (board_height b) (board_width b) s1).
  { rewrite make_variable_unfold, make_variable_loops_flat in Hmv.
    eapply loop_rect; [apply fresh_grid_rect|done]. }
  unfold bind at 1.
  destruct (mapM _ (enumerate rooms) s1) as [[room_cons s2]|] eqn:Hrc; [|done].
  destruct (mapM_lookup _ _ _ _ _ (fun p => read_only_room_constraint p.2 (p.1 + 1)) Hrc)
    as (-> & _ & _).
  rewrite bind_lift. unfold max_room_size.
  destruct (py_max (length <$> rooms)) as [R|]; [|done].
  unfold bind at 1. rewrite space_constraint_spec by done.
  unfold bind, get_store, ret.
  rewrite foldl_add_constraint, foldl_add_constraint, foldl_add_room, foldl_add_rows.
  simpl. intros [= <- <-]. by exists room_cons.
Qed.

(** On a well-formed input the construction returns a model: its variables
    are those of the grid, its constraints the room constraints followed
    by the constraints of the two sweeps. *)
Lemma model_well_formed b rooms :
  well_formed b rooms →
  ∃ va room_cons,
    make_variable b rooms (board_width b) (board_height b) [] = Ok (tt, va) ∧
    rect (board_height b) (board_width b) va ∧
    run_model b rooms =
    Ok (mkCSP "Ripple_Effect" (concat (grid_refs va)) rooms
          (room_cons ++
           sweep_list va (max_room_size rooms) (board_height b) (board_width b)
             (fun i a => (i, a)) ++
           sweep_list va (max_room_size rooms) (board_width b) (board_height b)
             (fun i a => (a, i))), va).
Proof.
  intros Hwf.
  destruct (make_variable_well_formed b rooms [] Hwf) as (va & Hmv & Hrect & _ & Hcells).
  destruct Hwf as ([row0 Hrow0] & Hrooms & Hwf').
  destruct (mapM_succeeds (fun p => room_constraint p.2 (p.1 + 1)) (enumerate rooms) va)
    as [room_cons Hrc].
  { intros p Hp%enumerate_from_elem.
    apply (room_constraint_well_formed b rooms); try done. }
  exists va, room_cons. split; [done|]. split; [done|].
  unfold run_model. rewrite model_unfold, Hrow0. simpl. rewrite Hmv.
  unfold bind at 1. rewrite Hrc. rewrite bind_lift.
  unfold max_room_size. destruct rooms as [|room rooms]; [done|]. simpl py_max. cbv iota.
  unfold bind at 1. rewrite space_constraint_spec by done.
  unfold bind, get_store, ret.
  rewrite foldl_add_constraint, foldl_add_constraint, foldl_add_room, foldl_add_rows.
  done.
Qed.

(** C10, as far as the code goes. Let [r] be a cell of the grid that no
    room coordinate designates. On a well-formed input (a board with a
    first row, at least one room, every room cell in the grid with a board
    entry that is [0] or a clue within [1..k], no variable designated
    twice, no clue repeated in a room) the construction returns a model.
    Whenever it returns a model, well-formed input or not, the variable of
    [r] has an empty domain and no assignment, is among the variables of
    the model, and is in the scope, on either side, of a constraint of the
    model with every cell of its row and of its column at a distance
    within [1..R]. *)
Theorem uncovered_cell_in_model b rooms r :
  in_grid (board_height b) (board_width b) r →
  Forall (λ c, cell_ref (board_height b) (board_width b) c ≠ Some r) (concat rooms) →
  (well_formed b rooms → ∃ csp va, run_model b rooms = Ok (csp, va)) ∧
  ∀ csp va,
    run_model b rooms = Ok (csp, va) →
    (∃ v, lookup_var va r = Some v ∧ domain v = [] ∧ assignedValue v = None) ∧
    r ∈ vars csp ∧
    ∀ q d, in_grid (board_height b) (board_width b) q →
           axis_distance r q = Some d → (1 ≤ d ≤ max_room_size rooms)%nat →
           (∃ c, c ∈ cons csp ∧ scope c = [r; q]) ∧
           (∃ c, c ∈ cons csp ∧ scope c = [q; r]).
Proof.
  intros [Hr1 Hr2] Hout. split.
  { intros Hwf. destruct (model_well_formed b rooms Hwf) as (va & rc & _ & _ & Hrun).
    by eexists _, va. }
  intros csp va Hrun.
  destruct (model_Ok_inv _ _ _ _ Hrun) as (room_cons & Hmv & Hrect & _ & ->). simpl.
  assert (Hv : lookup_var va r =
               Some (new_variable ("V" ++ str r.1 ++ "," ++ str r.2))).
  { rewrite make_variable_unfold, make_variable_loops_flat in Hmv.
    rewrite <- tagged_cells_snd, Forall_fmap in Hout.
    rewrite (loop_untouched b (board_height b) (board_width b) _ r _ _ _
               (fresh_grid_rect _ _) Hout Hmv).
    destruct r. by apply fresh_grid_lookup. }
  split; [by eexists|]. split; [apply grid_refs_elem; by rewrite Hv|].
  intros q d [Hq1 Hq2] Hd Hrange. unfold axis_distance in Hd.
  destruct r as [r1 r2], q as [q1 q2]. simpl in *.
  destruct (decide (r1 = q1)) as [->|Hrow].
  - injection Hd as <-.
    split; eexists; (split; [apply elem_of_app; right; apply elem_of_app; left;
                             apply sweep_list_elem|]).
    + exists q1, r2, q2. split_and!; (done || lia).
    + done.
    + exists q1, q2, r2. rewrite gap_sym. split_and!; (done || lia).
    + done.
  - destruct (decide (r2 = q2)) as [->|Hcol]; [|done]. injection Hd as <-.
    split; eexists; (split; [apply elem_of_app; right; apply elem_of_app; right;
                             apply sweep_list_elem|]).
    + exists q2, r1, q1. split_and!; (done || lia).
    + done.
    + exists q2, q1, r1. rewrite gap_sym. split_and!; (done || lia).
    + done.
Qed.

(** C10 fails without a room: on the board [[[0]]] with the empty room
    list the cell [(0, 0)] of the grid belongs to no room, and the
    construction does not return a model: [max] of the empty list of room
    sizes raises [ValueError]. *)
Lemma uncovered_cell_without_rooms :
  in_grid (board_height [[PInt 0]]) (board_width [[PInt 0]]) (0, 0)%nat ∧
  Forall (λ c, cell_ref (board_height [[PInt 0]]) (board_width [[PInt 0]]) c
               ≠ Some (0, 0)%nat) (concat []) ∧
  run_model [[PInt 0]] [] = Raise ValueError.
Proof. split; [vm_compute; lia|]. split; [constructor|reflexivity]. Qed.

Lemma uncovered_cell_in_model_witness :
  ∃ csp va,
    run_model blank_board partial_rooms = Ok (csp, va) ∧
    (∃ v, lookup_var va (1, 1)%nat = Some v ∧ domain v = [] ∧ assignedValue v = None) ∧
    (1, 1)%nat ∈ vars csp ∧
    ∀ q d, in_grid (board_height blank_board) (board_width blank_board) q →
           axis_distance (1, 1)%nat q = Some d →
           (1 ≤ d ≤ max_room_size partial_rooms)%nat →
           (∃ c, c ∈ cons csp ∧ scope c = [(1, 1)%nat; q]) ∧
           (∃ c, c ∈ cons csp ∧ scope c = [q; (1, 1)%nat]).
Proof.
  destruct (uncovered_cell_in_model blank_board partial_rooms (1, 1)%nat)
    as [Hreturns Hmodel].
  - vm_compute. lia.
  - apply (bool_decide_unpack _). vm_compute. exact I.
  - destruct Hreturns as (csp & va & Hrun).
    { apply (bool_decide_unpack _). vm_compute. exact I. }
    exists csp, va. split; [exact Hrun|]. exact (Hmodel csp va Hrun).
Defined.

(** * Further properties of the code *)

(** ** [make_variable]: how the visits to one variable compose *)

Lemma touch_name k val v : name (touch k val v) = name v.
Proof. unfold touch. by destruct (decide (val ≠ PInt 0)). Qed.

Lemma touch_all_name b l v : name (touch_all b l v) = name v.
Proof.
  revert v. induction l as [|kc l IH]; intros v; [done|].
  unfold touch_all in *. simpl. by rewrite IH, touch_name.
Qed.

Lemma loop_fold b Nh Mw l s u s' r :
  rect Nh Mw s →
  for_ l (fun visit => make_variable_body b visit.1 visit.2) s = Ok (u, s') →
  lookup_var s' r = touch_all b (visits Nh Mw r l) <$> lookup_var s r.
Proof.
  revert s. induction l as [|kc l IH]; intros s Hrect.
  - intros [= _ <-]. by destruct (lookup_var s r).
  - rewrite (loop_cons b).
    destruct (make_variable_body _ _ _ s) as [[[] s1]|] eqn:Hb; [|done].
    apply (body_rect b Nh Mw) in Hb as (Hrect1 & r1 & val & Hr1 & Hval & ->); [|done].
    intros Hloop. rewrite (IH _ Hrect1 Hloop). unfold visits.
    assert (Hclue : clue_of b kc.2 = val) by (unfold clue_of; by rewrite Hval).
    destruct (decide (r1 = r)) as [->|Hne].
    + rewrite filter_cons_True by done. rewrite lookup_update_var_eq.
      unfold touch_all. simpl foldl. rewrite Hclue.
      by destruct (lookup_var s r).
    + rewrite filter_cons_False by congruence.
      by rewrite lookup_update_var_ne.
Qed.

Lemma make_variable_fold b rooms Mw Nh s0 va r :
  make_variable b rooms Mw Nh s0 = Ok (tt, va) →
  in_grid Nh Mw r →
  lookup_var va r =
  Some (touch_all b (visits Nh Mw r (tagged_cells rooms))
          (new_variable (variable_name r))).
Proof.
  intros Hmv [Hi Hj].
  rewrite make_variable_unfold, make_variable_loops_flat in Hmv.
  rewrite (loop_fold b Nh Mw _ _ _ _ r (fresh_grid_rect Mw Nh) Hmv).
  destruct r as [i j]. by rewrite fresh_grid_lookup.
Qed.

(** X1: whatever [make_variable] raises is an [IndexError]. *)
Theorem make_variable_raises_IndexError b rooms Mw Nh s0 e :
  make_variable b rooms Mw Nh s0 = Raise e → e = IndexError.
Proof.
  rewrite make_variable_unfold, make_variable_loops_flat. apply loop_raise.
Qed.

Lemma make_variable_raises_IndexError_witness : IndexError = IndexError.
Proof.
  apply (make_variable_raises_IndexError row3_board [[(0, 0); (0, 3)]] 3 1 []).
  vm_compute. reflexivity.
Defined.

(** X2: the grid [make_variable] returns has [N] rows of [M] variables, and
    the variable at row [i], column [j] is still named ["V{i},{j}"],
    however often it was visited. *)
Theorem make_variable_shape_names b rooms Mw Nh s0 va :
  make_variable b rooms Mw Nh s0 = Ok (tt, va) →
  rect Nh Mw va ∧
  ∀ r, in_grid Nh Mw r →
       ∃ v, lookup_var va r = Some v ∧ name v = variable_name r.
Proof.
  intros Hmv. split.
  - rewrite make_variable_unfold, make_variable_loops_flat in Hmv.
    eapply loop_rect; [apply fresh_grid_rect|done].
  - intros r Hr. eexists. split; [exact (make_variable_fold _ _ _ _ _ _ _ Hmv Hr)|].
    by rewrite touch_all_name.
Qed.

Lemma make_variable_shape_names_witness :
  rect 1 3 row3_grid ∧
  ∀ r, in_grid 1 3 r →
       ∃ v, lookup_var row3_grid r = Some v ∧ name v = variable_name r.
Proof.
  apply (make_variable_shape_names row3_board row3_rooms 3 1 [] row3_grid).
  vm_compute. reflexivity.
Defined.

Lemma touch_visit_effect k val v : touch k val v = visit_effect k val v.
Proof.
  unfold touch, visit_effect.
  destruct (decide (val ≠ PInt 0)) as [Hne|Heq].
  - by rewrite decide_False.
  - rewrite decide_True by (by destruct (decide (val = PInt 0))).
    unfold add_domain_values. by rewrite one_to_values_upto.
Qed.

Lemma touch_all_visit_effect b l v :
  touch_all b l v = foldl (fun v kc => visit_effect kc.1 (clue_of b kc.2) v) v l.
Proof.
  unfold touch_all. revert v. induction l as [|kc l IH]; intros v; [done|].
  simpl. by rewrite touch_visit_effect, IH.
Qed.

(** X3: after [make_variable], every variable of the grid is what the
    visits of the room cells that designate it, taken in the order of the
    room lists, make of a fresh variable named ["V{i},{j}"]: a visit from a
    room of size [k] adds the values [1, ..., k] to the domain when the
    board entry is [0], and otherwise assigns the entry and makes it the
    only domain value. *)
Theorem make_variable_visits b rooms Mw Nh s0 va r :
  make_variable b rooms Mw Nh s0 = Ok (tt, va) →
  in_grid Nh Mw r →
  lookup_var va r =
  Some (foldl (fun v kc => visit_effect kc.1 (clue_of b kc.2) v)
          (mkVariable (variable_name r) [] None)
          (visits Nh Mw r (tagged_cells rooms))).
Proof.
  intros Hmv [Hi Hj].
  rewrite make_variable_unfold, make_variable_loops_flat in Hmv.
  rewrite (loop_fold b Nh Mw _ _ _ _ r (fresh_grid_rect Mw Nh) Hmv).
  destruct r as [i j]. rewrite fresh_grid_lookup by done. simpl.
  by rewrite touch_all_visit_effect.
Qed.

Lemma make_variable_visits_witness :
  lookup_var [[mkVariable "V0,0" [PInt 1; PInt 1; PInt 2] None;
               mkVariable "V0,1" [PInt 2] (Some (PInt 2))]] (0, 0)%nat =
  Some (foldl (fun v kc => visit_effect kc.1
                             (clue_of [[PInt 0; PStr "|"; PInt 2]] kc.2) v)
          (mkVariable (variable_name (0, 0)%nat) [] None)
          (visits 1 2 (0, 0)%nat (tagged_cells [[(0, 0)]; [(0, 0); (0, 1)]]))).
Proof.
  apply (make_variable_visits [[PInt 0; PStr "|"; PInt 2]]
           [[(0, 0)]; [(0, 0); (0, 1)]] 2 1 []).
  - vm_compute. reflexivity.
  - vm_compute. lia.
Defined.

Lemma touch_all_zero b l v :
  Forall (λ kc, clue_of b kc.2 = PInt 0) l →
  domain (touch_all b l v) = domain v ++ (l ≫= (fun kc => one_to kc.1)) ∧
  assignedValue (touch_all b l v) = assignedValue v.
Proof.
  intros Hl. revert v. induction Hl as [|kc l Hkc Hl IH]; intros v.
  - simpl. by rewrite app_nil_r.
  - unfold touch_all in *. simpl foldl. destruct (IH (touch kc.1 (clue_of b kc.2) v))
      as [-> ->]. rewrite Hkc, bind_cons. unfold touch.
    rewrite decide_False by (by intros ?). simpl. by rewrite <- app_assoc.
Qed.

(** X4: a variable whose visiting cells all have the board entry [0] ends
    unassigned, its domain being the values [1, ..., k] once per visit,
    room size after room size: a cell listed in a room of size 1 and then
    in a room of size 2 gets the domain [1, 1, 2]. *)
Theorem make_variable_domains_accumulate b rooms Mw Nh s0 va r :
  make_variable b rooms Mw Nh s0 = Ok (tt, va) →
  in_grid Nh Mw r →
  Forall (λ kc, clue_of b kc.2 = PInt 0) (visits Nh Mw r (tagged_cells rooms)) →
  ∃ v, lookup_var va r = Some v ∧
       domain v = (visits Nh Mw r (tagged_cells rooms)
                     ≫= (fun kc => PInt <$> seqZ 1 (Z.of_nat kc.1))) ∧
       assignedValue v = None.
Proof.
  intros Hmv Hr Hzero. eexists.
  split; [exact (make_variable_fold _ _ _ _ _ _ _ Hmv Hr)|].
  destruct (touch_all_zero b _ (new_variable (variable_name r)) Hzero) as [-> ->].
  split; [|done]. simpl. apply list_bind_ext; [|done].
  intros kc. apply one_to_values_upto.
Qed.

Lemma make_variable_domains_accumulate_witness :
  ∃ v, lookup_var [[mkVariable "V0,0" [PInt 1; PInt 1; PInt 2] None;
                    mkVariable "V0,1" [PInt 1; PInt 2] None]] (0, 0)%nat = Some v ∧
       domain v =
         (visits 1 2 (0, 0)%nat (tagged_cells [[(0, 0)]; [(0, 0); (0, 1)]])
            ≫= (fun kc => PInt <$> seqZ 1 (Z.of_nat kc.1))) ∧
       assignedValue v = None.
Proof.
  apply (make_variable_domains_accumulate [[PInt 0; PStr "|"; PInt 0]]
           [[(0, 0)]; [(0, 0); (0, 1)]] 2 1 []).
  - vm_compute. reflexivity.
  - vm_compute. lia.
  - vm_compute. repeat constructor.
Defined.

(** X5: the last visit decides the assignment: when the last cell that
    designates a variable has a board entry other than [0], the variable
    ends assigned that entry, with that entry as its only domain value,
    whatever the earlier visits did. *)
Theorem make_variable_last_clue b rooms Mw Nh s0 va r l kc :
  make_variable b rooms Mw Nh s0 = Ok (tt, va) →
  in_grid Nh Mw r →
  visits Nh Mw r (tagged_cells rooms) = l ++ [kc] →
  clue_of b kc.2 ≠ PInt 0 →
  ∃ v, lookup_var va r = Some v ∧
       domain v = [clue_of b kc.2] ∧ assignedValue v = Some (clue_of b kc.2).
Proof.
  intros Hmv Hr Hvisits Hclue. eexists.
  split; [exact (make_variable_fold _ _ _ _ _ _ _ Hmv Hr)|].
  rewrite Hvisits. unfold touch_all. rewrite foldl_snoc. unfold touch.
  by rewrite decide_True.
Qed.

Lemma make_variable_last_clue_witness :
  ∃ v, lookup_var row3_grid (0, 1)%nat = Some v ∧
       domain v = [clue_of row3_board (0, 1)] ∧
       assignedValue v = Some (clue_of row3_board (0, 1)).
Proof.
  apply (make_variable_last_clue row3_board row3_rooms 3 1 [] row3_grid
           (0, 1)%nat [] (3%nat, (0, 1))).
  - vm_compute. reflexivity.
  - vm_compute. lia.
  - vm_compute. reflexivity.
  - vm_compute. discriminate.
Defined.

(** ** [room_constraint]: when it returns, and what it then returns *)

(** X6: [room_constraint] returns a constraint exactly when every cell of
    the room designates a variable of the grid and the values of the
    assigned ones are distinct values of [1..k]; it raises [IndexError]
    exactly when some cell designates no variable. *)
Theorem room_constraint_outcome room k s :
  ((∃ c s', room_constraint room k s = Ok (c, s')) ↔
   ∃ sc, resolve_all s room = Some sc ∧
         NoDup (fixed_cells s sc).*2 ∧
         ∀ v, v ∈ (fixed_cells s sc).*2 → v ∈ one_to (length room)) ∧
  (room_constraint room k s = Raise IndexError ↔ resolve_all s room = None).
Proof.
  rewrite room_constraint_spec.
  destruct (resolve_all s room) as [sc|] eqn:Hsc.
  - destruct (remove_all _ _) as [it'|e] eqn:Hit.
    + pose proof (remove_all_Ok _ _ _ Hit) as Hperm. split; [|by split].
      split; [intros _|intros _; by eexists _, _].
      exists sc. split; [done|].
      pose proof (one_to_NoDup (length room)) as Hnd. rewrite Hperm in Hnd.
      apply NoDup_app in Hnd as (Hnd & _ & _). split; [done|].
      intros v Hv. rewrite Hperm. apply elem_of_app. by left.
    + apply remove_all_Raise in Hit as He. subst e. split; [|by split].
      split; [by intros (c & s' & ?)|].
      intros (sc' & [= <-] & Hnd & Hin).
      destruct (remove_all_succeeds _ _ Hnd Hin) as [it' Hok]. congruence.
  - split; [|by split]. split; [by intros (c & s' & ?)|by intros (sc & ? & _)].
Qed.

Lemma insert_fixed_length fx t :
  length (insert_fixed fx t) = (length fx + length t)%nat.
Proof.
  revert t. induction fx as [|p fx IH]; intros t; [done|].
  rewrite insert_fixed_cons, IH, py_insert_length. simpl. lia.
Qed.

(** X7: a constraint returned by [room_constraint] for the [k]-th room is
    named ["C{k}"], has one scope variable per room cell, and every tuple
    of its table has one value per scope variable. *)
Theorem room_constraint_arity room k s c s' :
  room_constraint room k s = Ok (c, s') →
  cname c = ("C" ++ str k)%string ∧
  length (scope c) = length room ∧
  ∀ t, t ∈ sat_tuples c → length t = length (scope c).
Proof.
  rewrite room_constraint_spec.
  destruct (resolve_all s room) as [sc|] eqn:Hsc; [|done].
  destruct (remove_all _ _) as [it'|] eqn:Hit; [|done]. intros [= <- _]. simpl.
  pose proof (resolve_all_length _ _ _ Hsc) as Hlen.
  split; [done|]. split; [done|].
  intros t (t0 & -> & Ht0%permutations_elem)%list_elem_of_fmap.
  rewrite insert_fixed_length, Ht0, Hlen.
  apply remove_all_Ok, Permutation_length in Hit.
  by rewrite one_to_length, length_app, length_fmap in Hit.
Qed.

Lemma room_constraint_arity_witness :
  cname (mkConstraint "C1" [(0, 0); (0, 1); (0, 2)]%nat
           [[PInt 1; PInt 2; PInt 3]; [PInt 3; PInt 2; PInt 1]]) =
    ("C" ++ str 1)%string ∧
  length (scope (mkConstraint "C1" [(0, 0); (0, 1); (0, 2)]%nat
                   [[PInt 1; PInt 2; PInt 3]; [PInt 3; PInt 2; PInt 1]])) =
    length [(0, 0); (0, 1); (0, 2)] ∧
  ∀ t, t ∈ sat_tuples (mkConstraint "C1" [(0, 0); (0, 1); (0, 2)]%nat
                         [[PInt 1; PInt 2; PInt 3]; [PInt 3; PInt 2; PInt 1]]) →
       length t = length (scope (mkConstraint "C1" [(0, 0); (0, 1); (0, 2)]%nat
                                   [[PInt 1; PInt 2; PInt 3]; [PInt 3; PInt 2; PInt 1]])).
Proof.
  apply (room_constraint_arity [(0, 0); (0, 1); (0, 2)] 1 row3_grid _ row3_grid).
  vm_compute. reflexivity.
Defined.

Lemma py_pos_mod len i :
  subscript_ok len i → py_pos len (i `mod` Z.of_nat len) = py_pos len i.
Proof.
  unfold subscript_ok. intros Hi. destruct (decide (0 ≤ i)) as [Hpos|Hneg].
  - by rewrite Z.mod_small by lia.
  - replace (i `mod` Z.of_nat len) with (i + Z.of_nat len).
    + transitivity (Some (Z.to_nat (Z.of_nat len + i))).
      * apply py_pos_Some. left. lia.
      * symmetry. apply py_pos_Some. right. lia.
    + apply (Z.mod_unique _ _ (-1)); lia.
Qed.

Lemma resolve_all_wrap s Nh Mw room :
  rect Nh Mw s →
  Forall (λ c, subscript_ok Nh c.1 ∧ subscript_ok Mw c.2) room →
  resolve_all s (wrap_cell Nh Mw <$> room) = resolve_all s room.
Proof.
  intros Hrect. induction 1 as [|c room [H1 H2] Hroom IH]; [done|].
  rewrite fmap_cons. simpl. rewrite IH, !(resolve_rect Nh Mw) by done.
  unfold cell_ref, wrap_cell. simpl. by rewrite !py_pos_mod.
Qed.

(** X8: [room_constraint] reads the coordinates of a room only through
    Python subscripts: on a grid of [N] rows of [M] variables, a room whose
    subscripts lie within [-N..N-1] and [-M..M-1] gives the same result as
    the room with every subscript counted from the start ([i mod N],
    [j mod M]). *)
Theorem room_constraint_wrap s Nh Mw room k :
  rect Nh Mw s →
  Forall (λ c, subscript_ok Nh c.1 ∧ subscript_ok Mw c.2) room →
  room_constraint (wrap_cell Nh Mw <$> room) k s = room_constraint room k s.
Proof.
  intros Hrect Hroom.
  by rewrite !room_constraint_spec, resolve_all_wrap, length_fmap.
Qed.

Lemma room_constraint_wrap_witness :
  room_constraint (wrap_cell 1 3 <$> [(0, -3); (-1, 1); (0, -1)]) 1 row3_grid =
  room_constraint [(0, -3); (-1, 1); (0, -1)] 1 row3_grid.
Proof.
  apply (room_constraint_wrap row3_grid 1 3 [(0, -3); (-1, 1); (0, -1)] 1).
  - split; [reflexivity|]. repeat constructor.
  - unfold subscript_ok. repeat constructor; simpl; lia.
Defined.

(** ** The tables of [space_constraint]: size, symmetry, growth *)

Lemma length_bind_pairs {A B} (l1 : list A) (l2 : list B) :
  length (l1 ≫= (fun a => (fun b => (a, b)) <$> l2)) = (length l1 * length l2)%nat.
Proof.
  induction l1 as [|a l1 IH]; [done|].
  rewrite bind_cons, length_app, length_fmap, IH. simpl. lia.
Qed.

Lemma product2_length {A} (l : list A) :
  length (product2 l) = (length l * length l)%nat.
Proof. apply length_bind_pairs. Qed.

Lemma removed_diag_count R d :
  (1 ≤ d ≤ R + 1)%nat →
  length (filter (λ p, ¬ keeps d (R + 1) p) (product2 (range2 1 (R + 1)))) =
  (R + 1 - d)%nat.
Proof.
  intros Hd.
  transitivity (length ((λ v : nat, (v, v)) <$> seq d (R + 1 - d)));
    [|by rewrite length_fmap, length_seq].
  apply Permutation_length, NoDup_Permutation.
  - apply NoDup_filter, pairs_NoDup.
  - apply NoDup_fmap_2; [by intros ?? [= ->]|apply NoDup_seq].
  - intros [a b]. rewrite list_elem_of_filter, pairs_elem, list_elem_of_fmap.
    unfold keeps. simpl. split.
    + intros [Hk Hab]. exists a. rewrite elem_of_seq.
      destruct (decide (a = b ∧ (d ≤ a < R + 1)%nat)) as [[-> ?]|]; [|done].
      split; [done|lia].
    + intros (v & [= -> ->] & Hv%elem_of_seq). split; [|lia].
      intros Hk. apply Hk. split; [done|lia].
Qed.

Lemma dist_table_length R d :
  (1 ≤ d ≤ R + 1)%nat → length (dist_table R d) = (R * R - (R + 1 - d))%nat.
Proof.
  intros Hd. unfold dist_table. rewrite length_fmap.
  pose proof (filter_app_complement (keeps d (R + 1)) (product2 (range2 1 (R + 1))))
    as Hperm.
  apply Permutation_length in Hperm.
  rewrite length_app, removed_diag_count, product2_length in Hperm by done.
  assert (Hlen : length (range2 1 (R + 1)) = R).
  { unfold range2. rewrite length_seq. lia. }
  rewrite Hlen in Hperm. lia.
Qed.

Lemma n_dist_tuples_lookup R n tab :
  ((fun n => dist_table R (n + 1)) <$> range R) !! n = Some tab →
  (n < R)%nat ∧ tab = dist_table R (n + 1).
Proof.
  unfold range. rewrite list_lookup_fmap.
  destruct (seq 0 R !! n) as [m|] eqn:Hm; [|done].
  apply lookup_seq in Hm as [-> Hn]. by intros [= <-].
Qed.

(** X9: the table computation of [space_constraint] never raises: it
    yields one table per distance [1..R]; the table for distance [n+1] has
    no repeated pair and [R*R - (R - n)] pairs, all [R*R] pairs less one
    removal per [v] in [n+1..R]. *)
Theorem n_dist_tuples_sizes R :
  ∃ tabs,
    n_dist_tuples R = Ok tabs ∧ length tabs = R ∧
    ∀ n tab, tabs !! n = Some tab →
             NoDup tab ∧ length tab = (R * R - (R - n))%nat.
Proof.
  eexists. split; [apply n_dist_tuples_spec|]. split.
  - unfold range. by rewrite length_fmap, length_seq.
  - intros n tab [Hn ->]%n_dist_tuples_lookup. split; [apply dist_table_NoDup|].
    rewrite dist_table_length by lia. lia.
Qed.

(** X10: every table built by [space_constraint] is symmetric: it admits
    [(v1, v2)] exactly when it admits [(v2, v1)], so the two constraints of
    a pair of cells, one per scope order, say the same. *)
Theorem n_dist_tuples_symmetric R tabs n tab v1 v2 :
  n_dist_tuples R = Ok tabs → tabs !! n = Some tab →
  [v1; v2] ∈ tab → [v2; v1] ∈ tab.
Proof.
  rewrite n_dist_tuples_spec. intros [= <-] [_ ->]%n_dist_tuples_lookup.
  rewrite !dist_table_elem.
  intros (a & b & [= -> ->] & Ha & Hb & Hk). exists b, a.
  split_and!; [done|lia..|]. intros [-> ?]. by apply Hk.
Qed.

Lemma n_dist_tuples_symmetric_witness :
  [PInt 1; PInt 2] ∈ dist_table 2 1 ∧ [PInt 2; PInt 1] ∈ dist_table 2 1.
Proof.
  assert (H : [PInt 1; PInt 2] ∈ dist_table 2 1) by (vm_compute; repeat constructor).
  split; [exact H|].
  apply (n_dist_tuples_symmetric 2 [dist_table 2 1; dist_table 2 2] 0
           (dist_table 2 1) (PInt 1) (PInt 2)).
  - vm_compute. reflexivity.
  - reflexivity.
  - exact H.
Defined.

(** X11: the tables grow with the distance: a pair of values admitted at
    one distance is admitted at every larger distance. *)
Theorem n_dist_tuples_monotone R tabs n m tab tab' t :
  n_dist_tuples R = Ok tabs →
  tabs !! n = Some tab → tabs !! m = Some tab' → (n ≤ m)%nat →
  t ∈ tab → t ∈ tab'.
Proof.
  rewrite n_dist_tuples_spec.
  intros [= <-] [_ ->]%n_dist_tuples_lookup [_ ->]%n_dist_tuples_lookup Hnm.
  rewrite !dist_table_elem.
  intros (a & b & -> & Ha & Hb & Hk). exists a, b.
  split_and!; [done|lia..|]. intros [-> ?]. apply Hk. split; [done|lia].
Qed.

Lemma n_dist_tuples_monotone_witness :
  [PInt 1; PInt 2] ∈ dist_table 2 1 ∧ [PInt 1; PInt 2] ∈ dist_table 2 2.
Proof.
  assert (H : [PInt 1; PInt 2] ∈ dist_table 2 1) by (vm_compute; repeat constructor).
  split; [exact H|].
  apply (n_dist_tuples_monotone 2 [dist_table 2 1; dist_table 2 2] 0 1
           (dist_table 2 1) (dist_table 2 2) [PInt 1; PInt 2]).
  - vm_compute. reflexivity.
  - reflexivity.
  - reflexivity.
  - lia.
  - exact H.
Defined.

(** ** [space_constraint]: both orders of a pair, and the case without values *)

(** X12: [space_constraint] treats the two orders of a pair alike: with a
    constraint of scope [[p; q]] it returns one of scope [[q; p]], and the
    two have the same table. *)
Theorem space_constraint_mirror s R Mw Nh cs s' c p q :
  rect Nh Mw s →
  space_constraint R Mw Nh s = Ok (cs, s') →
  c ∈ cs → scope c = [p; q] →
  ∃ c', c' ∈ cs ∧ scope c' = [q; p] ∧ sat_tuples c' = sat_tuples c.
Proof.
  intros Hrect Hsp Hc Hscope.
  rewrite space_constraint_spec in Hsp by done. injection Hsp as <- _.
  apply elem_of_app in Hc as [Hc|Hc];
    apply sweep_list_elem in Hc as (i & a & b & Hi & Ha & Hb & Hg & ->);
    simpl in Hscope; injection Hscope as <- <-.
  - exists (pair_constraint s R (i, b) (i, a) (gap b a)). split_and!.
    + apply elem_of_app. left. apply sweep_list_elem.
      exists i, b, a. rewrite (gap_sym b a). split_and!; (done || lia).
    + done.
    + simpl. by rewrite gap_sym.
  - exists (pair_constraint s R (b, i) (a, i) (gap b a)). split_and!.
    + apply elem_of_app. right. apply sweep_list_elem.
      exists i, b, a. rewrite (gap_sym b a). split_and!; (done || lia).
    + done.
    + simpl. by rewrite gap_sym.
Qed.

Lemma space_constraint_mirror_witness :
  ∃ c', c' ∈ sweep_list row3_grid 3 1 3 (fun i a => (i, a)) ++
             sweep_list row3_grid 3 3 1 (fun i a => (a, i)) ∧
        scope c' = [(0, 2); (0, 0)]%nat ∧
        sat_tuples c' =
        sat_tuples (pair_constraint row3_grid 3 (0, 0)%nat (0, 2)%nat 2).
Proof.
  apply (space_constraint_mirror row3_grid 3 3 1 _ row3_grid
           (pair_constraint row3_grid 3 (0, 0)%nat (0, 2)%nat 2)
           (0, 0)%nat (0, 2)%nat).
  - split; [reflexivity|]. repeat constructor.
  - vm_compute. reflexivity.
  - vm_compute. repeat constructor.
  - reflexivity.
Defined.

Lemma sweep_no_values tables lines len at_ acc s :
  sweep tables 0 lines len at_ acc s = Ok (acc, s).
Proof.
  unfold sweep.
  assert (Hnil : ∀ {A} (l : list A), (l ≫= (fun _ => @nil Constraint)) = []).
  { intros A l. induction l as [|x l IH]; [done|]. by rewrite bind_cons. }
  rewrite (foldM_collect _ (fun _ => [])).
  - by rewrite Hnil, app_nil_r.
  - intros i acc1 _. rewrite (foldM_collect _ (fun _ => [])).
    + by rewrite Hnil.
    + intros [a b] acc2 _. simpl. unfold ret. by rewrite app_nil_r.
Qed.

(** X13: when the largest room is empty ([max_rsize = 0]) no value can be
    placed and [space_constraint] returns no constraint; it does so without
    a single subscript into the grid, whatever the grid is. *)
Theorem space_constraint_no_values Mw Nh s :
  space_constraint 0 Mw Nh s = Ok ([], s).
Proof.
  rewrite space_constraint_unfold, bind_lift.
  change (n_dist_tuples 0) with (@Ok (list (list (list pyval))) []). cbv iota.
  unfold bind. by rewrite !sweep_no_values.
Qed.

(** ** [ripple_effect_csp_model]: degenerate inputs and the returned model *)

(** X14: without rooms no model is built: on an empty board the first
    subscript [initial_RP_board[0]] raises [IndexError]; on any other board
    the grid is built and [max] of the empty list of room sizes raises
    [ValueError]. *)
Theorem model_without_rooms b s :
  ripple_effect_csp_model b [] s =
  Raise (match b with [] => IndexError | _ :: _ => ValueError end).
Proof.
  rewrite model_unfold. destruct b as [|row0 b]; [done|].
  cbv beta iota zeta. rewrite make_variable_unfold. reflexivity.
Qed.

Lemma enumerate_from_lookup {A} (l : list A) start i :
  enumerate_from start l !! i = (fun x => ((start + i)%nat, x)) <$> l !! i.
Proof.
  revert start i. induction l as [|x l IH]; intros start [|i]; simpl; try done.
  - by rewrite Nat.add_0_r.
  - rewrite IH. by replace (S start + i)%nat with (start + S i)%nat by lia.
Qed.

Lemma concat_fmap_bind {A B} (f : A → list B) (l : list A) :
  concat (f <$> l) = l ≫= f.
Proof.
  induction l as [|x l IH]; [done|]. rewrite fmap_cons, bind_cons. simpl.
  by rewrite IH.
Qed.

Lemma grid_refs_rect Nh Mw s : rect Nh Mw s → concat (grid_refs s) = all_refs Nh Mw.
Proof.
  intros [Hlen Hrows]. unfold all_refs. rewrite <- concat_fmap_bind. f_equal.
  unfold grid_refs, range. apply list_eq. intros i.
  rewrite list_lookup_imap, list_lookup_fmap.
  destruct (s !! i) as [row|] eqn:Hrow.
  - rewrite lookup_seq_lt by (rewrite <- Hlen; by eapply lookup_lt_Some).
    simpl. f_equal. apply list_eq. intros j.
    rewrite list_lookup_imap, list_lookup_fmap.
    pose proof (Forall_lookup_1 _ _ _ _ Hrows Hrow) as Hrowlen. simpl in Hrowlen.
    destruct (row !! j) as [v|] eqn:Hv.
    + rewrite lookup_seq_lt by (rewrite <- Hrowlen; by eapply lookup_lt_Some). done.
    + rewrite lookup_seq_ge; [done|]. apply lookup_ge_None in Hv. lia.
  - rewrite lookup_seq_ge; [done|]. apply lookup_ge_None in Hrow. lia.
Qed.

Lemma all_refs_length Nh Mw : length (all_refs Nh Mw) = (Nh * Mw)%nat.
Proof.
  unfold all_refs, range. rewrite length_bind_pairs. by rewrite !length_seq.
Qed.

(** X15: a returned model is named ["Ripple_Effect"]; its variables are
    the [N * M] variables of the grid, registered row by row, and its rooms
    are the rooms given, in the order given. *)
Theorem model_registers b rooms csp va :
  run_model b rooms = Ok (csp, va) →
  csp_name csp = "Ripple_Effect"%string ∧
  vars csp = all_refs (board_height b) (board_width b) ∧
  length (vars csp) = (board_height b * board_width b)%nat ∧
  csp_rooms csp = rooms.
Proof.
  intros (room_cons & _ & Hrect & _ & ->)%model_Ok_inv. simpl.
  rewrite (grid_refs_rect _ _ _ Hrect), all_refs_length. done.
Qed.

Lemma model_registers_witness :
  csp_name (mkCSP "Ripple_Effect" [(0, 0)]%nat [[(0, 0)]]
              [mkConstraint "C1" [(0, 0)%nat] [[PInt 1]]]) = "Ripple_Effect"%string ∧
  vars (mkCSP "Ripple_Effect" [(0, 0)]%nat [[(0, 0)]]
          [mkConstraint "C1" [(0, 0)%nat] [[PInt 1]]]) =
    all_refs (board_height [[PInt 0]]) (board_width [[PInt 0]]) ∧
  length (vars (mkCSP "Ripple_Effect" [(0, 0)]%nat [[(0, 0)]]
                  [mkConstraint "C1" [(0, 0)%nat] [[PInt 1]]])) =
    (board_height [[PInt 0]] * board_width [[PInt 0]])%nat ∧
  csp_rooms (mkCSP "Ripple_Effect" [(0, 0)]%nat [[(0, 0)]]
               [mkConstraint "C1" [(0, 0)%nat] [[PInt 1]]]) = [[(0, 0)]].
Proof.
  apply (model_registers [[PInt 0]] [[(0, 0)]] _ [[mkVariable "V0,0" [PInt 1] None]]).
  vm_compute. reflexivity.
Defined.

Lemma enumerate_from_length {A} (l : list A) start :
  length (enumerate_from start l) = length l.
Proof. revert start. induction l as [|x l IH]; intros start; simpl; [done|]. by rewrite IH. Qed.

(** X16: in a returned model the constraints start with the room
    constraints, one per room and in the order of the rooms: the
    constraint at position [i] is the one [room_constraint] builds for
    [rooms[i]] over the returned grid; it is named ["C{i+1}"] and its scope
    is the variables that the cells of [rooms[i]] designate. *)
Theorem model_room_constraints b rooms csp va i room :
  run_model b rooms = Ok (csp, va) →
  rooms !! i = Some room →
  ∃ c, cons csp !! i = Some c ∧
       room_constraint room (i + 1) va = Ok (c, va) ∧
       cname c = ("C" ++ str (i + 1))%string ∧
       resolve_all va room = Some (scope c).
Proof.
  intros (room_cons & _ & _ & Hrc & ->)%model_Ok_inv Hroom. simpl.
  destruct (mapM_lookup _ _ _ _ _ (fun p => read_only_room_constraint p.2 (p.1 + 1)) Hrc)
    as (_ & _ & Hlook).
  destruct (Hlook i (i, room)) as (c & Hc & Hcon).
  { unfold enumerate. by rewrite enumerate_from_lookup, Hroom. }
  simpl in Hcon. exists c. split; [by apply lookup_app_l_Some|]. split; [done|].
  rewrite room_constraint_spec in Hcon.
  destruct (resolve_all va room) as [sc|]; [|done].
  destruct (remove_all _ _); [|done]. by injection Hcon as <-.
Qed.

Lemma model_room_constraints_witness :
  ∃ c, cons (mkCSP "Ripple_Effect" [(0, 0)]%nat [[(0, 0)]]
               [mkConstraint "C1" [(0, 0)%nat] [[PInt 1]]]) !! 0%nat = Some c ∧
       room_constraint [(0, 0)] (0 + 1) [[mkVariable "V0,0" [PInt 1] None]] =
         Ok (c, [[mkVariable "V0,0" [PInt 1] None]]) ∧
       cname c = ("C" ++ str (0 + 1))%string ∧
       resolve_all [[mkVariable "V0,0" [PInt 1] None]] [(0, 0)] = Some (scope c).
Proof.
  apply (model_room_constraints [[PInt 0]] [[(0, 0)]] _ _ 0 [(0, 0)]).
  - vm_compute. reflexivity.
  - reflexivity.
Defined.

Lemma name_of_make_variable b rooms Mw Nh s0 va r :
  make_variable b rooms Mw Nh s0 = Ok (tt, va) →
  in_grid Nh Mw r → name_of va r = variable_name r.
Proof.
  intros Hmv Hr. unfold name_of.
  by rewrite (make_variable_fold _ _ _ _ _ _ _ Hmv Hr), touch_all_name.
Qed.

(** X17: in a returned model whatever follows the room constraints is a
    spatial constraint: its scope is an ordered pair of grid cells of one
    row or one column at a distance [d] within [1..R], it is named
    ["C-V{i},{j}:V{i'},{j'}"] after the two cells, and its table is the
    table of the distance [d]. *)
Theorem model_spatial_constraints b rooms csp va c :
  run_model b rooms = Ok (csp, va) →
  c ∈ drop (length rooms) (cons csp) →
  ∃ p q d,
    in_grid (board_height b) (board_width b) p ∧
    in_grid (board_height b) (board_width b) q ∧
    axis_distance p q = Some d ∧ (1 ≤ d ≤ max_room_size rooms)%nat ∧
    scope c = [p; q] ∧
    cname c = ("C-" ++ variable_name p ++ ":" ++ variable_name q)%string ∧
    sat_tuples c = dist_table (max_room_size rooms) d.
Proof.
  intros (room_cons & Hmv & _ & Hrc & ->)%model_Ok_inv. simpl.
  destruct (mapM_lookup _ _ _ _ _ (fun p => read_only_room_constraint p.2 (p.1 + 1)) Hrc)
    as (_ & Hlen & _).
  unfold enumerate in Hlen. rewrite enumerate_from_length in Hlen.
  rewrite drop_app_length' by done.
  intros (p & q & d & Hp & Hq & Hd & Hrange & ->)%space_constraint_elem.
  exists p, q, d. split_and!; try (done || lia).
  rewrite <- (name_of_make_variable _ _ _ _ _ _ p Hmv Hp).
  by rewrite <- (name_of_make_variable _ _ _ _ _ _ q Hmv Hq).
Qed.

Lemma model_spatial_constraints_witness :
  ∃ p q d,
    in_grid (board_height row3_board) (board_width row3_board) p ∧
    in_grid (board_height row3_board) (board_width row3_board) q ∧
    axis_distance p q = Some d ∧ (1 ≤ d ≤ max_room_size row3_rooms)%nat ∧
    scope (pair_constraint row3_grid 3 (0, 0)%nat (0, 1)%nat 1) = [p; q] ∧
    cname (pair_constraint row3_grid 3 (0, 0)%nat (0, 1)%nat 1) =
      ("C-" ++ variable_name p ++ ":" ++ variable_name q)%string ∧
    sat_tuples (pair_constraint row3_grid 3 (0, 0)%nat (0, 1)%nat 1) =
      dist_table (max_room_size row3_rooms) d.
Proof.
  eapply (model_spatial_constraints row3_board row3_rooms _ row3_grid).
  - vm_compute. reflexivity.
  - vm_compute. repeat constructor.
Defined.

(** ** The number of spatial constraints *)

Lemma length_bind_same {A B} (f : A → list B) (l : list A) n :
  (∀ x, x ∈ l → length (f x) = n) → length (l ≫= f) = (length l * n)%nat.
Proof.
  induction l as [|x l IH]; intros Hf; [done|].
  rewrite bind_cons, length_app, Hf, IH; simpl; [done| |by left].
  intros y Hy. apply Hf. by right.
Qed.

Lemma length_bind_if {A B} (P : A → Prop) `{∀ x, Decision (P x)} (g : A → B)
    (l : list A) :
  length (l ≫= (fun x => if decide (P x) then [g x] else [])) = length (filter P l).
Proof.
  induction l as [|x l IH]; [done|].
  rewrite bind_cons, length_app, IH, filter_cons.
  by destruct (decide (P x)).
Qed.

Lemma filter_ext_elem {A} (P Q : A → Prop)
    `{∀ x, Decision (P x), ∀ x, Decision (Q x)} (l : list A) :
  (∀ x, x ∈ l → P x ↔ Q x) → filter P l = filter Q l.
Proof.
  induction l as [|x l IH]; intros Hext; [done|].
  rewrite !filter_cons, IH by (intros y Hy; apply Hext; by right).
  assert (P x ↔ Q x) as HPQ by (apply Hext; by left).
  destruct (decide (P x)), (decide (Q x)); tauto.
Qed.

Lemma off_diagonal_count len :
  length (filter (λ ab : nat * nat, ab.1 ≠ ab.2) (product2 (range len))) =
  (len * len - len)%nat.
Proof.
  pose proof (filter_app_complement (λ ab : nat * nat, ab.1 ≠ ab.2)
                (product2 (range len))) as Hperm.
  apply Permutation_length in Hperm.
  rewrite length_app, product2_length in Hperm. unfold range in Hperm at 3 4.
  rewrite length_seq in Hperm.
  assert (Hdiag : length (filter (λ ab : nat * nat, ¬ ab.1 ≠ ab.2)
                            (product2 (range len))) = len).
  { transitivity (length ((λ v : nat, (v, v)) <$> seq 0 len));
      [|by rewrite length_fmap, length_seq].
    apply Permutation_length, NoDup_Permutation.
    - apply NoDup_filter, product2_NoDup, NoDup_seq.
    - apply NoDup_fmap_2; [by intros ?? [= ->]|apply NoDup_seq].
    - intros [a b0]. rewrite list_elem_of_filter, product2_elem, list_elem_of_fmap.
      unfold range. simpl. split.
      + intros [Heq [Ha Hb]]. exists a. split; [|done].
        destruct (decide (a = b0)) as [->|]; done.
      + intros (v & [= -> ->] & Hv). split; [|done]. by intros ?. }
  lia.
Qed.

Lemma sweep_list_length s R lines len cell_at :
  (len ≤ R + 1)%nat →
  length (sweep_list s R lines len cell_at) = (lines * (len * len - len))%nat.
Proof.
  intros HR. unfold sweep_list.
  rewrite (length_bind_same _ _ (len * len - len)).
  - unfold range. by rewrite length_seq.
  - intros i _.
    rewrite (length_bind_if (λ ab : nat * nat, (1 ≤ gap ab.1 ab.2 ≤ R)%nat)
               (fun ab => pair_constraint s R (cell_at i ab.1) (cell_at i ab.2)
                            (gap ab.1 ab.2))).
    rewrite <- off_diagonal_count. f_equal. apply filter_ext_elem.
    intros [a b0] [Ha%elem_of_seq Hb%elem_of_seq]%product2_elem. unfold gap. simpl. lia.
Qed.

(** X18: when no two cells of a row or of a column are farther apart than
    [R] ([M <= R + 1] and [N <= R + 1]), [space_constraint] returns one
    constraint per ordered pair of distinct cells of each row and of each
    column: [N * (M*M - M) + M * (N*N - N)] constraints. *)
Theorem space_constraint_count s R Mw Nh cs s' :
  rect Nh Mw s → (Mw ≤ R + 1)%nat → (Nh ≤ R + 1)%nat →
  space_constraint R Mw Nh s = Ok (cs, s') →
  length cs = (Nh * (Mw * Mw - Mw) + Mw * (Nh * Nh - Nh))%nat.
Proof.
  intros Hrect HM HN Hsp.
  rewrite space_constraint_spec in Hsp by done. injection Hsp as <- _.
  by rewrite length_app, !sweep_list_length.
Qed.

Lemma space_constraint_count_witness :
  length (sweep_list row3_grid 3 1 3 (fun i a => (i, a)) ++
          sweep_list row3_grid 3 3 1 (fun i a => (a, i))) =
  (1 * (3 * 3 - 3) + 3 * (1 * 1 - 1))%nat.
Proof.
  apply (space_constraint_count row3_grid 3 3 1 _ row3_grid).
  - split; [reflexivity|]. repeat constructor.
  - lia.
  - lia.
  - vm_compute. reflexivity.
Defined.

(** ** [room_constraint]: the table is the set of the solutions of the room *)

Lemma py_insert_app_length {A} (pre l : list A) x :
  py_insert (length pre) x (pre ++ l) = pre ++ x :: l.
Proof.
  unfold py_insert. by rewrite take_app_length, drop_app_length.
Qed.

(** Taking the fixed values out of a tuple that carries them at their
    positions and putting them back gives the tuple again. *)
Lemma insert_fixed_free_of ovs t pre :
  length t = length ovs →
  (∀ p v, ovs !! p = Some (Some v) → t !! p = Some v) →
  insert_fixed (fixed_of (length pre) ovs) (pre ++ free_of ovs t) = pre ++ t.
Proof.
  revert t pre. induction ovs as [|[w|] ovs IH]; intros [|x t] pre Hlen Hfix;
    try done; simpl in Hlen.
  - assert (x = w) as -> by (specialize (Hfix 0%nat w eq_refl); by injection Hfix).
    simpl fixed_of. simpl free_of. rewrite insert_fixed_cons. simpl.
    rewrite py_insert_app_length.
    rewrite (cons_middle w pre), app_assoc.
    replace (S (length pre)) with (length (pre ++ [w])) by (rewrite length_app; simpl; lia).
    rewrite IH; [by rewrite <- app_assoc|lia|].
    intros p v Hp. by apply (Hfix (S p)).
  - simpl fixed_of. simpl free_of.
    rewrite (cons_middle x pre (free_of ovs t)), app_assoc.
    replace (S (length pre)) with (length (pre ++ [x])) by (rewrite length_app; simpl; lia).
    rewrite IH; [by rewrite <- app_assoc|lia|].
    intros p v Hp. by apply (Hfix (S p)).
Qed.

(** X19: the table of a constraint returned by [room_constraint] is
    exactly the set of the solutions of the room: a tuple is in it if and
    only if it is a permutation of [1..k] that has, at the scope position
    of every assigned variable, the value assigned to it. *)
Theorem room_constraint_solutions room k s c s' t :
  room_constraint room k s = Ok (c, s') →
  t ∈ sat_tuples c ↔
  t ≡ₚ one_to (length room) ∧
  ∀ p r v, scope c !! p = Some r → fixed_at s r = Some v → t !! p = Some v.
Proof.
  rewrite room_constraint_spec.
  destruct (resolve_all s room) as [sc|] eqn:Hsc; [|done].
  destruct (remove_all _ _) as [it'|] eqn:Hit; [|done]. intros [= <- _]. simpl.
  pose proof (remove_all_Ok _ _ _ Hit) as Hperm.
  pose proof (resolve_all_length _ _ _ Hsc) as Hlen.
  assert (Hk : (length room = length (fixed_cells s sc) + length it')%nat).
  { apply Permutation_length in Hperm.
    by rewrite one_to_length, length_app, length_fmap in Hperm. }
  rewrite list_elem_of_fmap. split.
  - intros (t0 & -> & Ht0%permutations_elem). split.
    + by rewrite insert_fixed_perm, Ht0, <- Hperm.
    + intros p r v Hp Hv. unfold fixed_cells.
      destruct (insert_fixed_lookup (fixed_at s <$> sc) 0 t0) as [_ Hlook].
      * fold (fixed_cells s sc). rewrite length_fmap, Hlen.
        apply Permutation_length in Ht0. lia.
      * apply (Hlook p v). by rewrite list_lookup_fmap, Hp; simpl; rewrite Hv.
  - intros [Ht Hfix].
    assert (Hins : insert_fixed (fixed_cells s sc) (free_of (fixed_at s <$> sc) t) = t).
    { apply (insert_fixed_free_of (fixed_at s <$> sc) t []).
      - apply Permutation_length in Ht.
        by rewrite one_to_length, length_fmap, Hlen in *.
      - intros p v Hp. rewrite list_lookup_fmap in Hp.
        destruct (sc !! p) as [r|] eqn:Hr; [|done]. injection Hp as Hp.
        by apply (Hfix p r v). }
    exists (free_of (fixed_at s <$> sc) t). split; [done|].
    apply permutations_elem.
    apply (Permutation_app_inv_l (fixed_cells s sc).*2).
    rewrite <- Hperm, <- Ht. rewrite <- Hins at 2. by rewrite insert_fixed_perm.
Qed.

Lemma room_constraint_solutions_witness :
  [PInt 3; PInt 2; PInt 1] ≡ₚ one_to (length [(0, 0); (0, 1); (0, 2)]) ∧
  ∀ p r v,
    scope (mkConstraint "C1" [(0, 0); (0, 1); (0, 2)]%nat
             [[PInt 1; PInt 2; PInt 3]; [PInt 3; PInt 2; PInt 1]]) !! p = Some r →
    fixed_at row3_grid r = Some v → [PInt 3; PInt 2; PInt 1] !! p = Some v.
Proof.
  apply (room_constraint_solutions [(0, 0); (0, 1); (0, 2)] 1 row3_grid _ row3_grid).
  - vm_compute. reflexivity.
  - vm_compute. repeat constructor.
Defined.

(** ** [make_variable]: when it returns *)

(** X20: [make_variable] returns a grid exactly when every cell of every
    room designates a variable of the [N] by [M] grid and an entry
    [board[2i][2j]] of the board. *)
Theorem make_variable_succeeds_iff b rooms Mw Nh s0 :
  (∃ va, make_variable b rooms Mw Nh s0 = Ok (tt, va)) ↔
  Forall (λ c, is_Some (cell_ref Nh Mw c) ∧
               ∃ val, board_at b (c.1 * 2) (c.2 * 2) = Ok val) (concat rooms).
Proof.
  rewrite make_variable_unfold, make_variable_loops_flat.
  rewrite <- tagged_cells_snd, Forall_fmap.
  generalize (fresh_grid_rect Mw Nh). generalize (fresh_grid Mw Nh).
  induction (tagged_cells rooms) as [|kc l IH]; intros s Hrect.
  - split; [by constructor|]. intros _. by exists s.
  - rewrite (loop_cons b), Forall_cons. split.
    + intros [va Hva].
      destruct (make_variable_body _ _ _ s) as [[[] s1]|] eqn:Hb; [|done].
      apply (body_rect b Nh Mw) in Hb as (Hrect1 & r & val & Hr & Hval & ->); [|done].
      split; [split; [by rewrite Hr|by exists val]|].
      apply (IH _ Hrect1). by exists va.
    + intros [[[r Hr] [val Hval]] Hl].
      rewrite make_variable_body_spec, (resolve_rect Nh Mw), Hr, Hval by done.
      apply IH; [by apply update_var_rect|done].
Qed.
